(** * Weinstein Stage 2 screener: a shallow embedding of weinstein_screener.py

    The development follows the source file top down: the configuration
    constants, [to_weekly], [compute_indicators], [is_weinstein_buy] and the
    ranking step at the end of [run_screener].

    Numbers.  Prices and volumes are float64 values in the source.  Rounding
    is left out: a finite value is an exact rational.  What is kept is the
    behaviour of the special values, because the branches of the program
    depend on it:
    - a value delivered by the data provider, and everything computed from
      such values by sums, means, differences and products, is either a
      finite number or NaN ("no value"): type [num], with [None] for NaN;
    - the relative-strength ratio is a quotient, so it can also be an
      infinity (finite / 0): type [float].
    Zero is taken as +0 (a provider does not deliver -0.0). *)

From Stdlib Require Import Ascii String.
From Stdlib Require Import List Bool Arith ZArith QArith Lia Lqa.
From Stdlib Require Import Sorted Permutation.
Import ListNotations.

Set Implicit Arguments.

Local Open Scope nat_scope.

(* ===================================================================== *)
(** ** Numbers *)
(* ===================================================================== *)

Module Num.

(** A float64 cell that is finite or NaN. *)
Abbreviation num := (option Q) (only parsing).

Definition Qltb (a b : Q) : bool := negb (Qle_bool b a).

(** [pd.isna] *)
Definition isna (x : num) : bool :=
  match x with None => true | Some _ => false end.

(** [x > y]: any comparison with NaN is false. *)
Definition gt (x y : num) : bool :=
  match x, y with
  | Some a, Some b => Qltb b a
  | _, _ => false
  end.

(** [x == y] on cells: NaN equals nothing. *)
Definition eqv (x y : num) : Prop :=
  match x, y with
  | Some a, Some b => (a == b)%Q
  | _, _ => False
  end.

Definition sub (x y : num) : num :=
  match x, y with
  | Some a, Some b => Some (a - b)%Q
  | _, _ => None
  end.

(** [c * x] for a finite constant [c]. *)
Definition scale (c : Q) (x : num) : num :=
  match x with Some a => Some (c * a)%Q | None => None end.

(** The non-NaN cells of a series, in order. *)
Fixpoint valid (xs : list num) : list Q :=
  match xs with
  | [] => []
  | Some q :: r => q :: valid r
  | None :: r => valid r
  end.

Definition Qsum (qs : list Q) : Q := fold_left Qplus qs 0%Q.

Definition Qmax (a b : Q) : Q := if Qle_bool a b then b else a.
Definition Qmin (a b : Q) : Q := if Qle_bool a b then a else b.

(** Reductions of pandas, all with [skipna=True]. *)
Definition first_valid (xs : list num) : num := hd_error (valid xs).
Definition last_valid (xs : list num) : num := hd_error (rev (valid xs)).
Definition max_valid (xs : list num) : num :=
  match valid xs with
  | [] => None
  | q :: r => Some (fold_left Qmax r q)
  end.
Definition min_valid (xs : list num) : num :=
  match valid xs with
  | [] => None
  | q :: r => Some (fold_left Qmin r q)
  end.
(** [sum] with [min_count=0]: the sum of no valid cell is 0. *)
Definition sum_valid (xs : list num) : num := Some (Qsum (valid xs)).

End Num.

Module Float.

(** A float64 cell that may also be an infinity. *)
Inductive float : Type :=
| NaN
| NInf
| Fin (q : Q)
| PInf.

Definition isna (x : float) : bool :=
  match x with NaN => true | _ => false end.

Definition neg (x : float) : float :=
  match x with
  | NaN => NaN
  | NInf => PInf
  | Fin q => Fin (- q)%Q
  | PInf => NInf
  end.

Definition add (x y : float) : float :=
  match x, y with
  | NaN, _ | _, NaN => NaN
  | PInf, NInf | NInf, PInf => NaN
  | PInf, _ | _, PInf => PInf
  | NInf, _ | _, NInf => NInf
  | Fin a, Fin b => Fin (a + b)%Q
  end.

Definition sub (x y : float) : float := add x (neg y).

(** [x > y] *)
Definition gt (x y : float) : bool :=
  match x, y with
  | NaN, _ | _, NaN => false
  | PInf, PInf => false
  | PInf, _ => true
  | _, PInf => false
  | NInf, _ => false
  | Fin _, NInf => true
  | Fin a, Fin b => Num.Qltb b a
  end.

(** [x / y] on cells that are finite or NaN: a finite quotient, or by a
    zero divisor an infinity of the sign of [x] (NaN for 0 / 0). *)
Definition div (x y : option Q) : float :=
  match x, y with
  | Some a, Some b =>
      if Qeq_bool b 0 then
        if Qeq_bool a 0 then NaN
        else if Num.Qltb 0 a then PInf else NInf
      else Fin (a / b)%Q
  | _, _ => NaN
  end.

End Float.

Import Num Float.

(* ===================================================================== *)
(** ** Series operations of pandas used by the program *)
(* ===================================================================== *)

Section Series.

Variable A : Type.

(** [zip]-wise binary operation on two aligned columns. *)
Fixpoint map2 (B C : Type) (f : A -> B -> C) (xs : list A) (ys : list B)
  : list C :=
  match xs, ys with
  | x :: xr, y :: yr => f x y :: map2 f xr yr
  | _, _ => []
  end.

(** The last [n] elements. *)
Definition lastn (n : nat) (xs : list A) : list A :=
  skipn (length xs - n) xs.

(** The windows of [rolling(n)]: walking down the series, the buffer keeps
    the [n] most recent cells; one window per row. *)
Fixpoint windows_from (n : nat) (buf : list A) (xs : list A)
  : list (list A) :=
  match xs with
  | [] => []
  | x :: r =>
      let buf' := lastn n (buf ++ [x]) in
      buf' :: windows_from n buf' r
  end.

Definition rolling (n : nat) (xs : list A) : list (list A) :=
  windows_from n [] xs.

(** [s.shift(k)]: the series moved down [k] rows, the top filled with
    [fill] (NaN), the length kept. *)
Definition shift (fill : A) (k : nat) (xs : list A) : list A :=
  firstn (length xs) (repeat fill k ++ xs).

(** [s.iloc[-a:-b]] for [a >= b >= 1]: Python clamps a start before the
    first row to the first row. *)
Definition iloc_neg_slice (a b : nat) (xs : list A) : list A :=
  firstn ((length xs - b) - (length xs - a)) (skipn (length xs - a) xs).

End Series.

(** The mean of one window of [rolling(n).mean()]: [min_periods] is the
    window length, so the mean is NaN unless the window holds [n] valid
    observations.  The value is the exact mean of the window.  (pandas
    carries a float64 running sum down the series, so its cell can differ
    from this mean in the last bits, and by an amount that depends on the
    rows before the window; nothing below relies on two windows with the
    same cells having the same float.) *)
Definition window_mean (n : nat) (win : list num) : num :=
  let vs := valid win in
  if (length vs <? n) || (length vs =? 0) then None
  else Some (Qsum vs / inject_Z (Z.of_nat (length vs)))%Q.

(** [s.rolling(n).mean()] *)
Definition rolling_mean (n : nat) (xs : list num) : list num :=
  map (window_mean n) (rolling n xs).

(** [s.diff(periods=k)], that is [s - s.shift(k)]. *)
Definition diff (k : nat) (xs : list num) : list num :=
  map2 Num.sub xs (shift None k xs).

Definition fdiff (k : nat) (xs : list float) : list float :=
  map2 Float.sub xs (shift NaN k xs).

(** [s.ffill()]: a NaN cell takes the last valid cell above it. *)
Fixpoint ffill_from (prev : num) (xs : list num) : list num :=
  match xs with
  | [] => []
  | x :: r =>
      let v := match x with Some _ => x | None => prev end in
      v :: ffill_from v r
  end.

Definition ffill (xs : list num) : list num := ffill_from None xs.

(** A stable sort by an integer key (pandas sorts an index with a stable
    merge sort; insertion from the right gives the same order). *)
Section SortBy.

Variable A : Type.
Variable key : A -> Z.

Fixpoint insert_by (x : A) (s : list A) : list A :=
  match s with
  | [] => [x]
  | y :: r => if (key x <=? key y)%Z then x :: y :: r
              else y :: insert_by x r
  end.

Fixpoint sort_by (xs : list A) : list A :=
  match xs with
  | [] => []
  | x :: r => insert_by x (sort_by r)
  end.

End SortBy.

(* ===================================================================== *)
(** ** CONFIG *)
(* ===================================================================== *)

Definition SMA_WEEKS : nat := 30.
Definition BASE_LOOKBACK_WEEKS : nat := 20.
Definition VOL_AVG_WEEKS : nat := 30.
Definition VOL_MULTIPLIER : Q := 3 # 2.
Definition RS_REQUIRED : bool := true.
Definition RS_LOOKBACK : nat := 8.

(* ===================================================================== *)
(** ** Data frames *)
(* ===================================================================== *)

(** One row of an OHLCV frame.  [date] is the index label, a day number
    counted from 1970-01-01 (a Thursday, so day 1 is a Friday). *)
Record Bar : Type := mkBar {
  date : Z;
  Open : num;
  High : num;
  Low : num;
  Close : num;
  Volume : num
}.

(** The three columns [compute_indicators] adds when a benchmark is given. *)
Record RSCols : Type := mkRSCols {
  B_Close : list num;
  RS : list float;
  RS_slope : list float
}.

(** The frame returned by [compute_indicators], by column.  [rs] is [None]
    when the frame has no relative-strength columns. *)
Record IndFrame : Type := mkIndFrame {
  bars : list Bar;
  SMA30 : list num;
  SMA30_slope : list num;
  avg_vol30 : list num;
  vol_spike : list bool;
  rs : option RSCols
}.

(** [len(df)] *)
Definition len (f : IndFrame) : nat := length (bars f).

(** ['RS_slope' in df.columns] *)
Definition has_RS_slope (f : IndFrame) : bool :=
  match rs f with Some _ => true | None => false end.

(* ===================================================================== *)
(** ** to_weekly *)
(* ===================================================================== *)

(** The Friday that ends the week of day [d] (the label of the 'W-FRI'
    bin, closed and labelled on the right). *)
Definition week_end (d : Z) : Z := (d + (1 - d) mod 7)%Z.

Definition in_week (f : Z) (b : Bar) : bool := (week_end (date b) =? f)%Z.

(** All Fridays from [lo] to [hi]. *)
Definition week_labels (lo hi : Z) : list Z :=
  map (fun k => (lo + 7 * Z.of_nat k)%Z)
      (seq 0 (Z.to_nat ((hi - lo) / 7 + 1))).

(** [df.resample('W-FRI')]: the frame is put in index order (stably), and
    every week from the first bar's to the last bar's gets a group, empty
    or not. *)
Definition resample_W_FRI (df : list Bar) : list (Z * list Bar) :=
  let s := sort_by date df in
  match s with
  | [] => []
  | b0 :: _ =>
      map (fun f => (f, filter (in_week f) s))
          (week_labels (week_end (date b0)) (week_end (date (last s b0))))
  end.

(** [.agg({'Open': 'first', 'High': 'max', 'Low': 'min', 'Close': 'last',
    'Volume': 'sum'})] on one group. *)
Definition agg (g : Z * list Bar) : Bar :=
  {| date := fst g;
     Open := first_valid (map Open (snd g));
     High := max_valid (map High (snd g));
     Low := min_valid (map Low (snd g));
     Close := last_valid (map Close (snd g));
     Volume := sum_valid (map Volume (snd g)) |}.

Definition complete (b : Bar) : bool :=
  negb (Num.isna (Open b)) && negb (Num.isna (High b))
  && negb (Num.isna (Low b)) && negb (Num.isna (Close b))
  && negb (Num.isna (Volume b)).

(** [df.dropna()] *)
Definition dropna (df : list Bar) : list Bar := filter complete df.

Definition to_weekly (df_daily : list Bar) : list Bar :=
  let weekly := map agg (resample_W_FRI df_daily) in
  let weekly := dropna weekly in
  weekly.

(* ===================================================================== *)
(** ** compute_indicators *)
(* ===================================================================== *)

(** [s.reindex(idx)] on the Close column of frame [b]: the cell of the row
    labelled [d], NaN where [b] has no such row.  (pandas refuses to
    reindex from duplicate labels; the frames here come from [to_weekly],
    whose labels are distinct.) *)
Definition reindex_Close (b : list Bar) (idx : list Z) : list num :=
  map (fun d => match find (fun x => (date x =? d)%Z) b with
                | Some x => Close x
                | None => None
                end) idx.

Definition compute_indicators (weekly : list Bar)
  (benchmark_weekly : option (list Bar)) : IndFrame :=
  let sma30 := rolling_mean SMA_WEEKS (map Close weekly) in
  let sma30_slope := diff 1 sma30 in
  let avg := rolling_mean VOL_AVG_WEEKS (map Volume weekly) in
  let spike := map2 Num.gt (map Volume weekly)
                    (map (scale VOL_MULTIPLIER) avg) in
  {| bars := weekly;
     SMA30 := sma30;
     SMA30_slope := sma30_slope;
     avg_vol30 := avg;
     vol_spike := spike;
     rs := match benchmark_weekly with
           | None => None
           | Some bw =>
               let b := ffill (reindex_Close bw (map date weekly)) in
               let r := map2 Float.div (map Close weekly) b in
               Some {| B_Close := b; RS := r;
                       RS_slope := fdiff RS_LOOKBACK r |}
           end |}.

(* ===================================================================== *)
(** ** is_weinstein_buy *)
(* ===================================================================== *)

(** Exceptions.  The one fallible step of [is_weinstein_buy] on a frame
    that has the indicator columns is [iloc[-1]]. *)
Inductive exn : Type := IndexError.

Inductive result (A : Type) : Type :=
| Ok (a : A)
| Raise (e : exn).

Arguments Raise {A} e.

Definition bind (A B : Type) (m : result A) (k : A -> result B)
  : result B :=
  match m with
  | Ok a => k a
  | Raise e => Raise e
  end.

Notation "x <- m ;; k" := (bind m (fun x => k))
  (at level 61, m at next level, right associativity).

(** The row [df.iloc[-1]].  The relative-strength cells are [None] when
    the frame lacks the columns. *)
Record Row : Type := mkRow {
  r_Close : num;
  r_Volume : num;
  r_SMA30 : num;
  r_SMA30_slope : num;
  r_avg_vol30 : num;
  r_vol_spike : bool;
  r_RS : option float;
  r_RS_slope : option float
}.

Definition iloc_last (f : IndFrame) : result Row :=
  match bars f with
  | [] => Raise IndexError
  | _ :: _ =>
      Ok {| r_Close := last (map Close (bars f)) None;
            r_Volume := last (map Volume (bars f)) None;
            r_SMA30 := last (SMA30 f) None;
            r_SMA30_slope := last (SMA30_slope f) None;
            r_avg_vol30 := last (avg_vol30 f) None;
            r_vol_spike := last (vol_spike f) false;
            r_RS := option_map (fun c => last (RS c) NaN) (rs f);
            r_RS_slope := option_map (fun c => last (RS_slope c) NaN) (rs f)
         |}
  end.

(** [row.get(key, np.nan)] *)
Definition get_or_nan (c : option float) : float :=
  match c with Some v => v | None => NaN end.

(** The [details] dictionary.  (The frame always has its [vol_spike]
    column, so the [else False] of that entry is never taken.) *)
Record Details : Type := mkDetails {
  d_close : num;
  d_prior_high : num;
  d_SMA30 : num;
  d_SMA30_slope : num;
  d_vol : num;
  d_avg_vol30 : num;
  d_vol_spike : bool;
  d_RS : float;
  d_RS_slope : float
}.

Definition is_weinstein_buy (weekly_ind : IndFrame)
  : result (bool * option Details) :=
  if len weekly_ind <? SMA_WEEKS + BASE_LOOKBACK_WEEKS then
    Ok (false, None)
  else
    last <- iloc_last weekly_ind ;;
    let prior_high :=
      max_valid (iloc_neg_slice (BASE_LOOKBACK_WEEKS + 1) 1
                                (map Close (bars weekly_ind))) in
    let cond_breakout := Num.gt (r_Close last) prior_high in
    let cond_above_sma :=
      negb (Num.isna (r_SMA30 last))
      && Num.gt (r_Close last) (r_SMA30 last) in
    let cond_sma_up :=
      negb (Num.isna (r_SMA30_slope last))
      && Num.gt (r_SMA30_slope last) (Some 0%Q) in
    let cond_vol :=
      negb (Num.isna (r_avg_vol30 last)) && r_vol_spike last in
    let cond_rs :=
      if has_RS_slope weekly_ind && RS_REQUIRED then
        negb (Float.isna (get_or_nan (r_RS_slope last)))
        && Float.gt (get_or_nan (r_RS_slope last)) (Fin 0)
      else true in
    let details :=
      {| d_close := r_Close last;
         d_prior_high := prior_high;
         d_SMA30 := r_SMA30 last;
         d_SMA30_slope := r_SMA30_slope last;
         d_vol := r_Volume last;
         d_avg_vol30 := r_avg_vol30 last;
         d_vol_spike := r_vol_spike last;
         d_RS := get_or_nan (r_RS last);
         d_RS_slope := get_or_nan (r_RS_slope last) |} in
    let meets :=
      cond_breakout && cond_above_sma && cond_sma_up && cond_vol
      && cond_rs in
    Ok (meets, Some details).

(* ===================================================================== *)
(** ** run_screener: what it does with the results *)
(* ===================================================================== *)

(** A row of the candidate table: the [details] with the ticker added. *)
Record Candidate : Type := mkCandidate {
  ticker : string;
  details : Details
}.

(** The body of the loop for one ticker, given its daily frame: the ticker
    is kept only when [meets] is true; an empty frame and any exception
    skip it. *)
Definition screen_ticker (spy_weekly : list Bar) (t : string)
  (df_daily : list Bar) : option Candidate :=
  match df_daily with
  | [] => None
  | _ =>
      let weekly := to_weekly df_daily in
      let weekly_ind := compute_indicators weekly (Some spy_weekly) in
      match is_weinstein_buy weekly_ind with
      | Ok (true, Some d) => Some {| ticker := t; details := d |}
      | _ => None
      end
  end.

(** A row of the table with its [market_cap] cell; [None] is a
    capitalization that could not be fetched. *)
Definition Ranked : Type := (Candidate * option Z)%type.

Definition market_cap (r : Ranked) : option Z := snd r.

Definition cap_known (r : Ranked) : bool :=
  match market_cap r with Some _ => true | None => false end.

Definition cap_key (r : Ranked) : Z :=
  match market_cap r with Some z => z | None => 0%Z end.

(** [df.sort_values(by="market_cap", ascending=False)], the way pandas
    orders one column: the rows with a value are reversed, sorted
    ascending and reversed again; the rows without a value follow
    ([na_position='last']) in their original order.  The sort is taken
    stable; the default kind leaves the order of equal keys open. *)
Definition sort_values_market_cap_desc (rows : list Ranked) : list Ranked :=
  let non_nan := filter cap_known rows in
  let nan := filter (fun r => negb (cap_known r)) rows in
  rev (sort_by cap_key (rev non_nan)) ++ nan.

(** The end of [run_screener]: the candidates get their capitalization
    from the provider [caps] and are sorted; no table without candidates. *)
Definition rank_candidates (caps : string -> option Z)
  (candidates : list Candidate) : option (list Ranked) :=
  match candidates with
  | [] => None
  | _ =>
      let df_cand := map (fun c => (c, caps (ticker c))) candidates in
      Some (sort_values_market_cap_desc df_cand)
  end.

(* ===================================================================== *)
(** ** Example frames *)
(* ===================================================================== *)

(** Week [i] of a synthetic weekly frame: the Friday [1 + 7 i], all four
    prices [c], volume [v]. *)
Definition week_bar (i : nat) (c v : Q) : Bar :=
  mkBar (1 + 7 * Z.of_nat i) (Some c) (Some c) (Some c) (Some c) (Some v).

Definition flat_weeks (n : nat) (c v : Q) : list Bar :=
  map (fun i => week_bar i c v) (seq 0 n).

(** 49 quiet weeks at 10, then a week that closes at 20 on ten times the
    volume. *)
Definition breakout_weeks : list Bar :=
  flat_weeks 49 10 100 ++ [week_bar 49 20 1000].

(* ===================================================================== *)
(** ** Rows of a column *)
(* ===================================================================== *)

(** The cell of row [t]; the default is only met outside the column. *)
Definition cell (xs : list num) (t : nat) : num := nth t xs None.
Definition fcell (xs : list float) (t : nat) : float := nth t xs NaN.
Definition flag (xs : list bool) (t : nat) : bool := nth t xs false.

(** The rows [t + 1 - n .. t] of a column: the [n] most recent rows at row
    [t], row [t] included (fewer when the column starts later). *)
Definition recent (A : Type) (n t : nat) (xs : list A) : list A :=
  skipn (S t - n) (firstn (S t) xs).

(** The [k] rows before row [t], row [t] excluded. *)
Definition preceding (A : Type) (k t : nat) (xs : list A) : list A :=
  firstn k (skipn (t - k) xs).

(** The arithmetic mean of a list of cells: NaN as soon as one cell is. *)
Definition arithmetic_mean (xs : list num) : num :=
  if existsb Num.isna xs then None
  else Some (Qsum (valid xs) / inject_Z (Z.of_nat (length xs)))%Q.

(* ===================================================================== *)
(** ** The conditions of the rule, row by row *)
(* ===================================================================== *)

(** The most recent row of a frame. *)
Definition last_row (f : IndFrame) : nat := len f - 1.

(** The maximum close of the [BASE_LOOKBACK_WEEKS] rows before row [t]. *)
Definition prior_high_at (f : IndFrame) (t : nat) : num :=
  max_valid (preceding BASE_LOOKBACK_WEEKS t (map Close (bars f))).

(** The relative-strength cells of row [t]; no value in a frame without
    the columns. *)
Definition rs_at (f : IndFrame) (t : nat) : float :=
  match rs f with Some c => fcell (RS c) t | None => NaN end.

Definition rs_slope_at (f : IndFrame) (t : nat) : float :=
  match rs f with Some c => fcell (RS_slope c) t | None => NaN end.

(** (1) breakout: the close is strictly above the prior high. *)
Definition breakout_at (f : IndFrame) (t : nat) : Prop :=
  Num.gt (cell (map Close (bars f)) t) (prior_high_at f t) = true.

(** (2) the close is strictly above the trend average. *)
Definition above_trend_at (f : IndFrame) (t : nat) : Prop :=
  Num.gt (cell (map Close (bars f)) t) (cell (SMA30 f) t) = true.

(** (3) the trend slope is strictly positive. *)
Definition rising_trend_at (f : IndFrame) (t : nat) : Prop :=
  Num.gt (cell (SMA30_slope f) t) (Some 0%Q) = true.

(** (4) the volume-spike flag is true. *)
Definition volume_spike_at (f : IndFrame) (t : nat) : Prop :=
  flag (vol_spike f) t = true.

(** (5) the relative-strength slope is strictly positive. *)
Definition rs_rising_at (f : IndFrame) (t : nat) : Prop :=
  Float.gt (rs_slope_at f t) (Fin 0) = true.

(** Every comparison above is false on a cell without value. *)
Definition false_without_value : Prop :=
  (forall x : num, Num.gt x None = false)
  /\ (forall y : num, Num.gt None y = false)
  /\ (forall y : float, Float.gt NaN y = false).

(** The values of the most recent row, with the prior high. *)
Definition snapshot (f : IndFrame) : Details :=
  {| d_close := last (map Close (bars f)) None;
     d_prior_high := prior_high_at f (last_row f);
     d_SMA30 := last (SMA30 f) None;
     d_SMA30_slope := last (SMA30_slope f) None;
     d_vol := last (map Volume (bars f)) None;
     d_avg_vol30 := last (avg_vol30 f) None;
     d_vol_spike := last (vol_spike f) false;
     d_RS := match rs f with Some c => last (RS c) NaN | None => NaN end;
     d_RS_slope :=
       match rs f with Some c => last (RS_slope c) NaN | None => NaN end |}.

(** The decision of [is_weinstein_buy] on a frame with enough rows, in
    terms of the cells of the most recent row. *)
Definition rule_on_last_row (f : IndFrame) : bool :=
  Num.gt (d_close (snapshot f)) (d_prior_high (snapshot f))
  && Num.gt (d_close (snapshot f)) (d_SMA30 (snapshot f))
  && Num.gt (d_SMA30_slope (snapshot f)) (Some 0%Q)
  && (negb (Num.isna (d_avg_vol30 (snapshot f)))
      && d_vol_spike (snapshot f))
  && (if has_RS_slope f && RS_REQUIRED
      then Float.gt (d_RS_slope (snapshot f)) (Fin 0)
      else true).

(** The rule as the specification words it: passing iff the five
    conditions hold on the most recent row, the fifth whenever relative
    strength is required. *)
Definition passes_iff_five_conditions (f : IndFrame) : Prop :=
  exists meets snap,
    is_weinstein_buy f = Ok (meets, snap)
    /\ (meets = true <->
        breakout_at f (last_row f)
        /\ above_trend_at f (last_row f)
        /\ rising_trend_at f (last_row f)
        /\ volume_spike_at f (last_row f)
        /\ (RS_REQUIRED = true -> rs_rising_at f (last_row f))).

(** The specification's "on fail, emits nothing". *)
Definition no_snapshot_unless_passing (f : IndFrame) : Prop :=
  forall meets snap,
    is_weinstein_buy f = Ok (meets, snap) -> meets = false -> snap = None.

(* ===================================================================== *)
(** ** Weeks, alignment and ranking in the words of the specification *)
(* ===================================================================== *)

(** The daily bars of the week that ends on [friday], in index order. *)
Definition week_group (df_daily : list Bar) (friday : Z) : list Bar :=
  filter (in_week friday) (sort_by date df_daily).

(** "open = the week's earliest daily open, close = the week's latest
    daily close", read on the bars themselves. *)
Definition open_close_of_first_and_last_bar (df_daily : list Bar) : Prop :=
  forall wb, In wb (to_weekly df_daily) ->
    match week_group df_daily (date wb) with
    | [] => False
    | b0 :: r => Open wb = Open b0 /\ Close wb = Close (last r b0)
    end.

(** A week whose Monday bar lacks its open. *)
Definition monday_without_open : list Bar :=
  [ mkBar 4 None (Some 12) (Some 9) (Some 11) (Some 100);
    mkBar 5 (Some 11) (Some 13) (Some 10) (Some 12) (Some 200) ]%Q.

(** The label of row [t] of a frame. *)
Definition date_at (df : list Bar) (t : nat) : Z := nth t (map date df) 0%Z.

(** A benchmark that lacks week 3. *)
Definition gap_benchmark : list Bar :=
  flat_weeks 3 5 1 ++ [week_bar 4 6 1].

(** The order of the candidate table: descending capitalization, the
    unknown ones after all the known ones. *)
Definition cap_ge (a b : option Z) : Prop :=
  match a, b with
  | Some x, Some y => (y <= x)%Z
  | _, None => True
  | None, Some _ => False
  end.

Definition ranked_before (a b : Ranked) : Prop :=
  cap_ge (market_cap a) (market_cap b).

(** Three candidates, the second without a known capitalization. *)
Definition example_candidates : list Candidate :=
  map (fun t => mkCandidate t
                  (snapshot (compute_indicators breakout_weeks None)))
      ["AAA"; "BBB"; "CCC"]%string.

Definition example_caps (t : string) : option Z :=
  if String.eqb t "AAA" then Some 10%Z
  else if String.eqb t "BBB" then None
  else Some 30%Z.

(* ===================================================================== *)
(** ** fetch_sp500_tickers *)
(* ===================================================================== *)

(** The text of a cell is a sequence of characters.  The model is generic
    in the character type: [isspace] is Python's [str.isspace] on one
    character, [is_dot] recognises ['.'] and [dash] is ['-']. *)
Section FetchTickers.

Variable char : Type.
Variable isspace : char -> bool.
Variable is_dot : char -> bool.
Variable dash : char.

Fixpoint lstrip (s : list char) : list char :=
  match s with
  | [] => []
  | c :: r => if isspace c then lstrip r else s
  end.

(** [s.strip()] *)
Definition strip (s : list char) : list char :=
  rev (lstrip (rev (lstrip s))).

(** A text that neither starts nor ends with a whitespace character. *)
Definition starts_clean (s : list char) : Prop :=
  match s with c :: _ => isspace c = false | [] => True end.

Definition trimmed (s : list char) : Prop :=
  starts_clean s /\ starts_clean (rev s).

(** [s.replace('.', '-')] *)
Definition replace_dot (s : list char) : list char :=
  map (fun c => if is_dot c then dash else c) s.

(** A table as the function reads it: its [tr] rows in document order,
    each row given by the texts of its [td] cells. *)
Definition Table : Type := list (list (list char)).

(** The loop over [table.find_all('tr')[1:]]: a row without [td] cell adds
    nothing, any other row adds its first cell, stripped, with dots
    replaced. *)
Definition tickers_of_rows (rows : list (list (list char)))
  : list (list char) :=
  flat_map (fun cols =>
              match cols with
              | [] => []
              | c0 :: _ => [replace_dot (strip c0)]
              end) rows.

(** What the function does with the parsed page.  [by_id] is the result
    of [soup.find('table', {'id': 'constituents'})] and [by_class] that of
    the fallback [soup.find('table', {'class': 'wikitable sortable'})];
    [None] stands for Python's [None].  With no table at all,
    [table.find_all] raises an AttributeError: the result is [None]. *)
Definition fetch_sp500_tickers (by_id by_class : option Table)
  : option (list (list char)) :=
  let table := match by_id with
               | Some t => Some t
               | None => by_class
               end in
  match table with
  | None => None
  | Some t => Some (tickers_of_rows (tl t))
  end.

End FetchTickers.

(* ===================================================================== *)
(** ** run_screener: the scan *)
(* ===================================================================== *)

Definition BATCH_SIZE : nat := 50.

(** [[l[i:i+size] for i in range(0, len(l), size)]], for [size] > 0. *)
Definition batches (A : Type) (size : nat) (l : list A) : list (list A) :=
  map (fun k => firstn size (skipn (k * size) l))
      (seq 0 ((length l + size - 1) / size)).

(** What the batch download left in [data]. *)
Inductive BatchData : Type :=
| BatchFailed
    (* the download raised: [data = None] *)
| ByTicker (cols : list (string * list Bar))
    (* MultiIndex columns: one sub-frame per ticker of level 0 *)
| Flat (df : list Bar).
    (* plain columns: one frame *)

(** The daily frame of ticker [t]: the sub-frame of the batch download,
    with the rows that have a missing cell dropped, when the batch has
    one for [t]; the frame of an individual download otherwise.
    [download_one t] is the individual
    [yf.download(t, ...)]; [None] stands for an exception, which the
    [try] around the ticker catches. *)
Definition daily_frame (download_one : string -> option (list Bar))
  (data : BatchData) (t : string) : option (list Bar) :=
  match data with
  | BatchFailed => download_one t
  | ByTicker cols =>
      match find (fun p => String.eqb (fst p) t) cols with
      | Some p => Some (dropna (snd p))
      | None => download_one t
      end
  | Flat df => Some df
  end.

(** One turn of the inner loop: the candidate appended for [t], if any. *)
Definition process_ticker (spy_weekly : list Bar)
  (download_one : string -> option (list Bar)) (data : BatchData)
  (t : string) : list Candidate :=
  match daily_frame download_one data t with
  | None => []
  | Some df_daily =>
      match screen_ticker spy_weekly t df_daily with
      | Some c => [c]
      | None => []
      end
  end.

(** The list [candidates] that [run_screener] returns, from the tickers,
    the benchmark's daily frame and the two download functions. *)
Definition run_screener_candidates (spy : list Bar)
  (download_batch : list string -> BatchData)
  (download_one : string -> option (list Bar))
  (tickers : list string) : list Candidate :=
  let spy_weekly := to_weekly spy in
  flat_map (fun batch =>
              let data := download_batch batch in
              flat_map (process_ticker spy_weekly download_one data) batch)
           (batches BATCH_SIZE tickers).

(** [xs] is [ys] with some elements left out, the order kept. *)
Inductive Subseq (A : Type) : list A -> list A -> Prop :=
| Subseq_nil : Subseq [] []
| Subseq_skip (y : A) (xs ys : list A) :
    Subseq xs ys -> Subseq xs (y :: ys)
| Subseq_keep (x : A) (xs ys : list A) :
    Subseq xs ys -> Subseq (x :: xs) (x :: ys).

(** An ASCII reading of the character parameters, for examples. *)
Definition ascii_isspace (c : Ascii.ascii) : bool :=
  let n := Ascii.nat_of_ascii c in
  (n =? 32) || ((9 <=? n) && (n <=? 13)) || ((28 <=? n) && (n <=? 31)).

Definition ascii_is_dot (c : Ascii.ascii) : bool :=
  Ascii.eqb c "."%char.

Definition example_table : list (list (list Ascii.ascii)) :=
  map (map list_ascii_of_string)
      [ ["Symbol"; "Security"];
        [" BRK.B "; "Berkshire Hathaway"];
        [];
        ["AAPL"; "Apple Inc."] ]%string.

(** A scan of one ticker whose batch download delivers one plain frame:
    the weeks of [breakout_weeks], against a flat benchmark. *)
Definition example_scan : list Candidate :=
  run_screener_candidates (flat_weeks 50 5 1)
    (fun _ => Flat breakout_weeks) (fun _ => None) ["AAA"%string].

(** The benchmark's last known close on day [d], read on the benchmark
    itself: the close of its latest bar dated [d] or earlier that has a
    close. *)
Definition last_known_close (bw : list Bar) (d : Z) : num :=
  last_valid (map Close (filter (fun b => (date b <=? d)%Z)
                                (sort_by date bw))).

(** "The benchmark close aligned to that week-end date by forward-filling
    the benchmark's last known close", read on the benchmark's own
    weeks. *)
Definition aligned_to_last_known_close (weekly bw : list Bar) : Prop :=
  forall c, rs (compute_indicators weekly (Some bw)) = Some c ->
    forall t, t < length weekly ->
      cell (B_Close c) t = last_known_close bw (date_at weekly t).

(** An instrument that traded in weeks 0 and 3 only, and a benchmark with
    weeks 0, 1 and 2, closing at 5, 6 and 7. *)
Definition sparse_instrument : list Bar :=
  [week_bar 0 10 100; week_bar 3 10 100].

Definition three_week_benchmark : list Bar :=
  [week_bar 0 5 1; week_bar 1 6 1; week_bar 2 7 1].

(** "Such a series passes whenever the breakout, above-trend,
    rising-trend and volume-spike conditions hold on the last row." *)
Definition passes_whenever_four_conditions (f : IndFrame) : Prop :=
  breakout_at f (last_row f)
  /\ above_trend_at f (last_row f)
  /\ rising_trend_at f (last_row f)
  /\ volume_spike_at f (last_row f) ->
  exists snap, is_weinstein_buy f = Ok (true, snap).

(** 39 quiet weeks at 10, then a week that closes at 20 on ten times the
    volume: 40 weeks in all. *)
Definition breakout_weeks_40 : list Bar :=
  flat_weeks 39 10 100 ++ [week_bar 39 20 1000].

(* ===================================================================== *)
(** ** Lemmas on lists and series *)
(* ===================================================================== *)

Section ListFacts.

Variable A : Type.

Lemma last_nth (l : list A) (d : A) : last l d = nth (length l - 1) l d.
Proof.
  induction l as [|x [|y r] IH]; try reflexivity.
  change (last (x :: y :: r) d) with (last (y :: r) d).
  rewrite IH. simpl. now rewrite Nat.sub_0_r.
Qed.

Lemma map2_length (B C : Type) (f : A -> B -> C) (xs : list A) :
  forall ys, length xs = length ys -> length (map2 f xs ys) = length xs.
Proof.
  induction xs as [|x xr IH]; intros [|y yr] H; simpl in *;
    try discriminate; auto.
Qed.

Lemma map2_nth (B C : Type) (f : A -> B -> C) (xs : list A) :
  forall ys t da db dc, t < length xs -> length xs = length ys ->
    nth t (map2 f xs ys) dc = f (nth t xs da) (nth t ys db).
Proof.
  induction xs as [|x xr IH]; intros [|y yr] t da db dc Ht H;
    simpl in *; try lia; try discriminate.
  destruct t as [|t]; [reflexivity|]. apply IH; lia.
Qed.

Lemma lastn_all (n : nat) (l : list A) : length l <= n -> lastn n l = l.
Proof.
  intros H. unfold lastn. replace (length l - n) with 0 by lia.
  reflexivity.
Qed.

Lemma lastn_length (n : nat) (l : list A) :
  length (lastn n l) = Nat.min n (length l).
Proof. unfold lastn. rewrite length_skipn. lia. Qed.

Lemma lastn_app_lastn (n : nat) (a b : list A) :
  lastn n (lastn n a ++ b) = lastn n (a ++ b).
Proof.
  unfold lastn at 2.
  set (k := length a - n).
  assert (Hk : k <= length a) by (unfold k; lia).
  assert (E : skipn k a ++ b = skipn k (a ++ b)).
  { rewrite skipn_app. replace (k - length a) with 0 by lia. reflexivity. }
  rewrite E. unfold lastn. rewrite skipn_skipn, length_skipn.
  f_equal. rewrite length_app. unfold k. lia.
Qed.

Lemma windows_from_length (n : nat) (xs : list A) :
  forall buf, length (windows_from n buf xs) = length xs.
Proof. induction xs as [|x r IH]; intros buf; simpl; auto. Qed.

Lemma windows_from_nth (n : nat) (xs : list A) :
  forall buf t, t < length xs ->
    nth t (windows_from n buf xs) [] = lastn n (buf ++ firstn (S t) xs).
Proof.
  induction xs as [|x r IH]; intros buf t Ht; simpl in Ht; [lia|].
  destruct t as [|t].
  - simpl. reflexivity.
  - cbn [windows_from nth]. rewrite IH by lia.
    rewrite lastn_app_lastn, <- app_assoc. reflexivity.
Qed.

Lemma rolling_length (n : nat) (xs : list A) :
  length (rolling n xs) = length xs.
Proof. apply windows_from_length. Qed.

(** The window of row [t] is the [n] most recent rows. *)
Lemma rolling_nth (n t : nat) (xs : list A) :
  t < length xs -> nth t (rolling n xs) [] = recent n t xs.
Proof.
  intros Ht. unfold rolling, recent. rewrite windows_from_nth by exact Ht.
  cbn [app]. unfold lastn. rewrite firstn_length_le by lia. reflexivity.
Qed.

Lemma recent_length (n t : nat) (xs : list A) :
  t < length xs -> length (recent n t xs) = Nat.min n (S t).
Proof.
  intros Ht. unfold recent.
  rewrite length_skipn, firstn_length_le by lia. lia.
Qed.

Lemma shift_length (fill : A) (k : nat) (xs : list A) :
  length (shift fill k xs) = length xs.
Proof.
  unfold shift. rewrite firstn_length_le; [reflexivity|].
  rewrite length_app. lia.
Qed.

Lemma shift_nth (fill : A) (k t : nat) (xs : list A) (d : A) :
  t < length xs ->
  nth t (shift fill k xs) d = if t <? k then fill else nth (t - k) xs d.
Proof.
  intros Ht. unfold shift. rewrite nth_firstn.
  destruct (Nat.ltb_spec t (length xs)) as [_|]; [|lia].
  destruct (Nat.ltb_spec t k) as [H|H].
  - rewrite app_nth1 by (rewrite repeat_length; exact H).
    apply nth_repeat_lt. exact H.
  - rewrite app_nth2 by (rewrite repeat_length; exact H).
    now rewrite repeat_length.
Qed.

Lemma iloc_neg_slice_preceding (k : nat) (xs : list A) :
  S k <= length xs ->
  iloc_neg_slice (S k) 1 xs = preceding k (length xs - 1) xs.
Proof.
  intros H. unfold iloc_neg_slice, preceding. f_equal; [lia|f_equal; lia].
Qed.

End ListFacts.

Lemma valid_length_le (xs : list num) : length (valid xs) <= length xs.
Proof.
  induction xs as [|[q|] r IH]; simpl; lia.
Qed.

Lemma valid_no_nan (xs : list num) :
  existsb Num.isna xs = false -> length (valid xs) = length xs.
Proof.
  induction xs as [|[q|] r IH]; simpl; intros H; try discriminate; auto.
Qed.

Lemma valid_some_nan (xs : list num) :
  existsb Num.isna xs = true -> length (valid xs) < length xs.
Proof.
  induction xs as [|[q|] r IH]; simpl; intros H; try discriminate.
  - apply IH in H. lia.
  - pose proof (valid_length_le r). lia.
Qed.

(** With a full window the rolling mean is the arithmetic mean. *)
Lemma window_mean_full (n : nat) (win : list num) :
  0 < n -> length win = n -> window_mean n win = arithmetic_mean win.
Proof.
  intros Hn Hl. unfold window_mean, arithmetic_mean.
  destruct (existsb Num.isna win) eqn:E.
  - apply valid_some_nan in E.
    destruct (Nat.ltb_spec (length (valid win)) n); [reflexivity|lia].
  - apply valid_no_nan in E. rewrite E, Hl.
    destruct (Nat.ltb_spec n n); [lia|].
    destruct (Nat.eqb_spec n 0); [lia|]. reflexivity.
Qed.

(** With a window that is not full yet there is no mean. *)
Lemma window_mean_short (n : nat) (win : list num) :
  length win < n -> window_mean n win = None.
Proof.
  intros H. unfold window_mean. pose proof (valid_length_le win).
  destruct (Nat.ltb_spec (length (valid win)) n); [reflexivity|lia].
Qed.

Lemma rolling_mean_length (n : nat) (xs : list num) :
  length (rolling_mean n xs) = length xs.
Proof. unfold rolling_mean. now rewrite length_map, rolling_length. Qed.

Lemma rolling_mean_nth (n t : nat) (xs : list num) :
  t < length xs ->
  cell (rolling_mean n xs) t = window_mean n (recent n t xs).
Proof.
  intros Ht. unfold cell, rolling_mean.
  rewrite nth_indep with (d' := window_mean n [])
    by (now rewrite length_map, rolling_length).
  rewrite map_nth, rolling_nth by exact Ht. reflexivity.
Qed.

Lemma diff_length (k : nat) (xs : list num) :
  length (diff k xs) = length xs.
Proof. unfold diff. apply map2_length. now rewrite shift_length. Qed.


Lemma fdiff_length (k : nat) (xs : list float) :
  length (fdiff k xs) = length xs.
Proof. unfold fdiff. apply map2_length. now rewrite shift_length. Qed.

Lemma fdiff_nth (k t : nat) (xs : list float) :
  t < length xs ->
  fcell (fdiff k xs) t =
  if t <? k then NaN else Float.sub (fcell xs t) (fcell xs (t - k)).
Proof.
  intros Ht. unfold fcell, fdiff.
  rewrite map2_nth with (da := NaN) (db := NaN)
    by (rewrite ?shift_length; auto).
  rewrite shift_nth by exact Ht.
  destruct (t <? k); [|reflexivity].
  destruct (nth t xs NaN); reflexivity.
Qed.

Lemma Qltb_iff (a b : Q) : Qltb a b = true <-> (a < b)%Q.
Proof.
  unfold Qltb. rewrite negb_true_iff. split; intros H.
  - apply Qnot_le_lt. intros Hle. apply Qle_bool_iff in Hle. congruence.
  - destruct (Qle_bool b a) eqn:E; [|reflexivity].
    apply Qle_bool_iff in E. exfalso. exact (Qlt_not_le _ _ H E).
Qed.

Lemma gt_iff (x y : num) :
  Num.gt x y = true <->
  exists a b, x = Some a /\ y = Some b /\ (b < a)%Q.
Proof.
  destruct x as [a|], y as [b|]; simpl.
  - rewrite Qltb_iff. split.
    + intros H. now exists a, b.
    + intros (a' & b' & Ha & Hb & H). now inversion Ha; inversion Hb; subst.
  - split; [discriminate | intros (? & ? & _ & H & _); discriminate].
  - split; [discriminate | intros (? & ? & H & _); discriminate].
  - split; [discriminate | intros (? & ? & H & _); discriminate].
Qed.

Lemma gt_nan_r (x : num) : Num.gt x None = false.
Proof. now destruct x. Qed.

(** The guard [not pd.isna(y)] in front of [x > y] changes nothing. *)
Lemma guarded_gt (x y : num) :
  negb (Num.isna y) && Num.gt x y = Num.gt x y.
Proof. destruct y; simpl; [reflexivity | now rewrite gt_nan_r]. Qed.

(** A flag computed as [v > c * a] is false when [a] has no value. *)
Lemma guarded_gt_scaled (c : Q) (v a : num) :
  negb (Num.isna a) && Num.gt v (scale c a) = Num.gt v (scale c a).
Proof. destruct a; simpl; [reflexivity | now rewrite gt_nan_r]. Qed.

Lemma guarded_gt_l (x y : num) :
  negb (Num.isna x) && Num.gt x y = Num.gt x y.
Proof. now destruct x. Qed.

Lemma guarded_fgt (x y : float) :
  negb (Float.isna x) && Float.gt x y = Float.gt x y.
Proof. now destruct x. Qed.

(* ===================================================================== *)
(** ** The columns of compute_indicators *)
(* ===================================================================== *)

Section Indicators.

Variable weekly : list Bar.
Variable benchmark_weekly : option (list Bar).

Let f := compute_indicators weekly benchmark_weekly.

Lemma ci_len : len f = length weekly.
Proof. reflexivity. Qed.

Lemma ci_SMA30_length : length (SMA30 f) = length weekly.
Proof.
  change (SMA30 f) with (rolling_mean SMA_WEEKS (map Close weekly)).
  now rewrite rolling_mean_length, length_map.
Qed.

Lemma ci_SMA30_slope_length : length (SMA30_slope f) = length weekly.
Proof.
  change (SMA30_slope f) with (diff 1 (SMA30 f)).
  now rewrite diff_length, ci_SMA30_length.
Qed.

Lemma ci_avg_vol30_length : length (avg_vol30 f) = length weekly.
Proof.
  change (avg_vol30 f) with (rolling_mean VOL_AVG_WEEKS (map Volume weekly)).
  now rewrite rolling_mean_length, length_map.
Qed.

Lemma ci_vol_spike_length : length (vol_spike f) = length weekly.
Proof.
  change (vol_spike f) with
    (map2 Num.gt (map Volume weekly)
          (map (scale VOL_MULTIPLIER) (avg_vol30 f))).
  rewrite map2_length; rewrite !length_map; [reflexivity|].
  symmetry. apply ci_avg_vol30_length.
Qed.

(** Row by row, the flag is the comparison of the source. *)
Lemma ci_vol_spike_nth (t : nat) :
  t < length weekly ->
  flag (vol_spike f) t =
  Num.gt (cell (map Volume weekly) t)
         (scale VOL_MULTIPLIER (cell (avg_vol30 f) t)).
Proof.
  intros Ht. unfold flag, cell.
  change (vol_spike f) with
    (map2 Num.gt (map Volume weekly)
          (map (scale VOL_MULTIPLIER) (avg_vol30 f))).
  rewrite map2_nth with (da := None) (db := None).
  - f_equal. change (@None Q) with (scale VOL_MULTIPLIER None) at 1.
    apply map_nth.
  - now rewrite length_map.
  - rewrite !length_map. symmetry. apply ci_avg_vol30_length.
Qed.



Lemma ci_avg_vol30_nth (t : nat) :
  t < length weekly ->
  cell (avg_vol30 f) t =
  window_mean VOL_AVG_WEEKS (recent VOL_AVG_WEEKS t (map Volume weekly)).
Proof.
  intros Ht.
  change (avg_vol30 f)
    with (rolling_mean VOL_AVG_WEEKS (map Volume weekly)).
  apply rolling_mean_nth. now rewrite length_map.
Qed.

End Indicators.

(* ===================================================================== *)
(** ** Claims on the indicator columns *)
(* ===================================================================== *)



(** C3.  In the frame of [compute_indicators], every row has its
    volume-spike flag and its rolling average volume: the average has no
    value before the window of [VOL_AVG_WEEKS] weeks is full, and is the
    arithmetic mean of the volumes of the [VOL_AVG_WEEKS] most recent
    weeks from then on.  The flag of a row is true iff the row's volume is
    strictly above [VOL_MULTIPLIER] (1.5) times that average.  The flag is
    a boolean: it is false when the average has no value, and false when
    the volume equals the threshold. *)
Theorem volume_spike_flag_strict (weekly : list Bar)
  (benchmark_weekly : option (list Bar)) (t : nat) :
  t < length weekly ->
  let f := compute_indicators weekly benchmark_weekly in
  let volume := cell (map Volume weekly) t in
  let avg := cell (avg_vol30 f) t in
  let window := recent VOL_AVG_WEEKS t (map Volume weekly) in
  nth_error (vol_spike f) t = Some (flag (vol_spike f) t)
  /\ nth_error (avg_vol30 f) t = Some avg
  /\ (S t < VOL_AVG_WEEKS -> avg = None)
  /\ (VOL_AVG_WEEKS <= S t -> avg = arithmetic_mean window)
  /\ (flag (vol_spike f) t = true <->
      exists v a, volume = Some v /\ avg = Some a
                  /\ (VOL_MULTIPLIER * a < v)%Q)
  /\ (flag (vol_spike f) t = true <->
      VOL_AVG_WEEKS <= S t
      /\ exists v a, volume = Some v /\ arithmetic_mean window = Some a
                     /\ (VOL_MULTIPLIER * a < v)%Q)
  /\ (avg = None -> flag (vol_spike f) t = false)
  /\ (Num.eqv volume (scale VOL_MULTIPLIER avg) ->
      flag (vol_spike f) t = false)
  /\ VOL_MULTIPLIER = (3 # 2)%Q.
Proof.
  intros Ht f volume avg window.
  assert (Hpos : 0 < VOL_AVG_WEEKS) by (unfold VOL_AVG_WEEKS; lia).
  assert (Hlen : t < length (map Volume weekly))
    by now rewrite length_map.
  assert (E := ci_vol_spike_nth weekly benchmark_weekly Ht).
  fold f in E. fold volume avg in E.
  assert (Ea := ci_avg_vol30_nth weekly benchmark_weekly Ht).
  fold f in Ea. fold avg window in Ea.
  assert (Hshort : S t < VOL_AVG_WEEKS -> avg = None).
  { intros Hs. rewrite Ea. apply window_mean_short. unfold window.
    rewrite recent_length by exact Hlen. lia. }
  assert (Hfull : VOL_AVG_WEEKS <= S t -> avg = arithmetic_mean window).
  { intros Hs. rewrite Ea. apply window_mean_full; [exact Hpos|].
    unfold window. rewrite recent_length by exact Hlen. lia. }
  assert (Hiff : flag (vol_spike f) t = true <->
                 exists v a, volume = Some v /\ avg = Some a
                             /\ (VOL_MULTIPLIER * a < v)%Q).
  { rewrite E. split.
    - intros H. apply gt_iff in H.
      destruct H as (v & th & Hv & Hth & Hlt).
      destruct avg as [a|]; [|discriminate].
      exists v, a. simpl in Hth. inversion Hth; subst. auto.
    - intros (v & a & Hv & Ha & Hlt). rewrite Hv, Ha. apply gt_iff.
      exists v, (VOL_MULTIPLIER * a)%Q. auto. }
  split.
  { apply nth_error_nth'. unfold f. now rewrite ci_vol_spike_length. }
  split.
  { apply nth_error_nth'. unfold f. now rewrite ci_avg_vol30_length. }
  split; [exact Hshort|]. split; [exact Hfull|]. split; [exact Hiff|].
  split.
  { rewrite Hiff. split.
    - intros (v & a & Hv & Ha & Hlt).
      destruct (Nat.lt_ge_cases (S t) VOL_AVG_WEEKS) as [Hs|Hs].
      + rewrite (Hshort Hs) in Ha. discriminate.
      + split; [exact Hs|]. exists v, a. rewrite <- (Hfull Hs). auto.
    - intros (Hs & v & a & Hv & Ha & Hlt). exists v, a.
      rewrite (Hfull Hs). auto. }
  split.
  { intros Hn. rewrite E, Hn. apply gt_nan_r. }
  split; [|reflexivity].
  intros Heq. rewrite E.
  destruct volume as [v|], avg as [a|]; simpl in *;
    try reflexivity; try contradiction.
  destruct (Qltb (VOL_MULTIPLIER * a) v) eqn:El; [|reflexivity].
  apply Qltb_iff in El. rewrite Heq in El.
  exfalso. exact (Qlt_irrefl _ El).
Qed.

(** The last week of [breakout_weeks]: the volume 1000 is above 1.5 times
    the average 130 of the thirty most recent volumes, and the flag is
    true. *)
Lemma volume_spike_flag_strict_witness :
  49 < length breakout_weeks
  /\ arithmetic_mean (recent VOL_AVG_WEEKS 49 (map Volume breakout_weeks))
     = Some (3900 # 30)%Q
  /\ flag (vol_spike (compute_indicators breakout_weeks None)) 49 = true.
Proof.
  assert (H : 49 < length breakout_weeks) by (vm_compute; lia).
  assert (Hm : arithmetic_mean
                 (recent VOL_AVG_WEEKS 49 (map Volume breakout_weeks))
               = Some (3900 # 30)%Q) by (vm_compute; reflexivity).
  split; [exact H|]. split; [exact Hm|].
  destruct (@volume_spike_flag_strict breakout_weeks None 49 H)
    as (_ & _ & _ & _ & _ & Hiff & _).
  apply Hiff. split; [vm_compute; lia|].
  exists 1000%Q, (3900 # 30)%Q.
  split; [vm_compute; reflexivity|]. split; [exact Hm|].
  vm_compute. reflexivity.
Defined.

(** C9.  In the frame of [compute_indicators], on a row whose rolling
    average volume has a value and that value is zero, the volume-spike
    flag is true iff the row's volume is strictly positive. *)
Theorem volume_spike_over_zero_average (weekly : list Bar)
  (benchmark_weekly : option (list Bar)) (t : nat) (a : Q) :
  t < length weekly ->
  let f := compute_indicators weekly benchmark_weekly in
  cell (avg_vol30 f) t = Some a ->
  (a == 0)%Q ->
  (flag (vol_spike f) t = true <->
   exists v, cell (map Volume weekly) t = Some v /\ (0 < v)%Q).
Proof.
  intros Ht f Ha Hz.
  assert (E := ci_vol_spike_nth weekly benchmark_weekly Ht).
  fold f in E. rewrite E, Ha. simpl scale. rewrite gt_iff.
  assert (Hth : (VOL_MULTIPLIER * a == 0)%Q) by (rewrite Hz; ring).
  split.
  - intros (v & th & Hv & Hth' & Hlt). exists v. split; [exact Hv|].
    inversion Hth'; subst. now rewrite Hth in Hlt.
  - intros (v & Hv & Hlt). exists v, (VOL_MULTIPLIER * a)%Q.
    repeat split; auto. now rewrite Hth.
Qed.

(* ===================================================================== *)
(** ** is_weinstein_buy *)
(* ===================================================================== *)

Lemma enough_rows_positive : 0 < SMA_WEEKS + BASE_LOOKBACK_WEEKS.
Proof. unfold SMA_WEEKS. lia. Qed.

Lemma lookback_within_history :
  S BASE_LOOKBACK_WEEKS <= SMA_WEEKS + BASE_LOOKBACK_WEEKS.
Proof. unfold SMA_WEEKS. lia. Qed.

(** With enough rows the function returns, with the decision of the rule
    and the snapshot of the most recent row. *)
Lemma is_weinstein_buy_enough_rows (f : IndFrame) :
  SMA_WEEKS + BASE_LOOKBACK_WEEKS <= len f ->
  is_weinstein_buy f = Ok (rule_on_last_row f, Some (snapshot f)).
Proof.
  intros Hn. pose proof enough_rows_positive as Hp.
  pose proof lookback_within_history as Hb.
  unfold is_weinstein_buy.
  destruct (Nat.ltb_spec (len f) (SMA_WEEKS + BASE_LOOKBACK_WEEKS)) as [|_];
    [lia|].
  unfold iloc_last. unfold len in Hn.
  destruct (bars f) as [|b0 br] eqn:Eb; [simpl in Hn; lia|].
  rewrite <- Eb in *. cbv beta zeta delta [bind]. cbv beta iota.
  cbn [r_Close r_Volume r_SMA30 r_SMA30_slope r_avg_vol30 r_vol_spike
       r_RS r_RS_slope].
  replace (BASE_LOOKBACK_WEEKS + 1) with (S BASE_LOOKBACK_WEEKS) by lia.
  rewrite iloc_neg_slice_preceding by (rewrite length_map; lia).
  rewrite length_map.
  change (length (bars f) - 1) with (last_row f).
  fold (prior_high_at f (last_row f)).
  rewrite !guarded_gt, guarded_gt_l, guarded_fgt.
  unfold rule_on_last_row, snapshot, get_or_nan, has_RS_slope.
  cbn [d_close d_prior_high d_SMA30 d_SMA30_slope d_vol d_avg_vol30
       d_vol_spike d_RS d_RS_slope].
  destruct (rs f); reflexivity.
Qed.

Lemma ffill_from_length (xs : list num) :
  forall prev, length (ffill_from prev xs) = length xs.
Proof. induction xs as [|x r IH]; intros prev; simpl; auto. Qed.

Section RelativeStrength.

Variable weekly : list Bar.
Variable bw : list Bar.

Let f := compute_indicators weekly (Some bw).
Let aligned := ffill (reindex_Close bw (map date weekly)).
Let ratio := map2 Float.div (map Close weekly) aligned.

Lemma ci_rs :
  rs f = Some {| B_Close := aligned; RS := ratio;
                 RS_slope := fdiff RS_LOOKBACK ratio |}.
Proof. reflexivity. Qed.

Lemma ci_B_Close_length : length aligned = length weekly.
Proof.
  unfold aligned, ffill, reindex_Close.
  now rewrite ffill_from_length, !length_map.
Qed.

Lemma ci_RS_length : length ratio = length weekly.
Proof.
  unfold ratio. rewrite map2_length; rewrite length_map; [reflexivity|].
  symmetry. apply ci_B_Close_length.
Qed.

Lemma ci_RS_slope_length :
  length (fdiff RS_LOOKBACK ratio) = length weekly.
Proof. now rewrite fdiff_length, ci_RS_length. Qed.

End RelativeStrength.

(** On a frame of [compute_indicators] the decision is the conjunction of
    the conditions on the most recent row; the relative-strength condition
    takes part only when the frame has the column. *)
Lemma rule_on_computed_frame (weekly : list Bar)
  (benchmark_weekly : option (list Bar)) :
  0 < length weekly ->
  let f := compute_indicators weekly benchmark_weekly in
  rule_on_last_row f = true <->
  breakout_at f (last_row f)
  /\ above_trend_at f (last_row f)
  /\ rising_trend_at f (last_row f)
  /\ volume_spike_at f (last_row f)
  /\ (has_RS_slope f = true -> RS_REQUIRED = true ->
      rs_rising_at f (last_row f)).
Proof.
  intros Hn. cbv zeta.
  set (f := compute_indicators weekly benchmark_weekly).
  assert (Et : last_row f = length weekly - 1) by reflexivity.
  assert (Ht : last_row f < length weekly) by lia.
  assert (Eclose : d_close (snapshot f) = cell (map Close weekly) (last_row f)).
  { cbn [snapshot d_close]. rewrite last_nth, length_map. reflexivity. }
  assert (Esma : d_SMA30 (snapshot f) = cell (SMA30 f) (last_row f)).
  { cbn [snapshot d_SMA30]. rewrite last_nth. unfold f at 1.
    rewrite ci_SMA30_length. reflexivity. }
  assert (Eslope : d_SMA30_slope (snapshot f)
                   = cell (SMA30_slope f) (last_row f)).
  { cbn [snapshot d_SMA30_slope]. rewrite last_nth. unfold f at 1.
    rewrite ci_SMA30_slope_length. reflexivity. }
  assert (Eavg : d_avg_vol30 (snapshot f) = cell (avg_vol30 f) (last_row f)).
  { cbn [snapshot d_avg_vol30]. rewrite last_nth. unfold f at 1.
    rewrite ci_avg_vol30_length. reflexivity. }
  assert (Espike : d_vol_spike (snapshot f) = flag (vol_spike f) (last_row f)).
  { cbn [snapshot d_vol_spike]. rewrite last_nth. unfold f at 1.
    rewrite ci_vol_spike_length. reflexivity. }
  assert (Ers : has_RS_slope f = true ->
                d_RS_slope (snapshot f) = rs_slope_at f (last_row f)).
  { unfold has_RS_slope, rs_slope_at. cbn [snapshot d_RS_slope].
    destruct benchmark_weekly as [bw|].
    - intros _. unfold f. rewrite ci_rs. cbn [RS_slope].
      rewrite last_nth, ci_RS_slope_length. reflexivity.
    - discriminate. }
  assert (Eprior : d_prior_high (snapshot f) = prior_high_at f (last_row f))
    by reflexivity.
  assert (Ev : negb (Num.isna (cell (avg_vol30 f) (last_row f)))
               && flag (vol_spike f) (last_row f)
               = flag (vol_spike f) (last_row f)).
  { pose proof (ci_vol_spike_nth weekly benchmark_weekly Ht) as E.
    fold f in E. rewrite E. apply guarded_gt_scaled. }
  unfold rule_on_last_row.
  rewrite Eclose, Esma, Eslope, Eavg, Espike, Eprior, Ev.
  rewrite !andb_true_iff.
  unfold breakout_at, above_trend_at, rising_trend_at, volume_spike_at,
    rs_rising_at.
  change (bars f) with weekly.
  destruct (has_RS_slope f) eqn:Eh; cbn [andb].
  - rewrite (Ers eq_refl). destruct RS_REQUIRED.
    + tauto.
    + split; [intros H; repeat split; try tauto; discriminate | tauto].
  - split; [intros H; repeat split; try tauto; discriminate | tauto].
Qed.

(** Zero volume over a zero average: the flag is false. *)
Lemma volume_spike_over_zero_average_witness :
  29 < length (flat_weeks 30 10 0)
  /\ cell (avg_vol30 (compute_indicators (flat_weeks 30 10 0) None)) 29
     = Some (0 # 30)%Q
  /\ (0 # 30 == 0)%Q
  /\ (flag (vol_spike (compute_indicators (flat_weeks 30 10 0) None)) 29
      = true <->
      exists v, cell (map Volume (flat_weeks 30 10 0)) 29 = Some v
                /\ (0 < v)%Q).
Proof.
  assert (H1 : 29 < length (flat_weeks 30 10 0)) by (vm_compute; lia).
  assert (H2 : cell (avg_vol30 (compute_indicators (flat_weeks 30 10 0) None))
                    29 = Some (0 # 30)%Q) by (vm_compute; reflexivity).
  assert (H3 : (0 # 30 == 0)%Q) by reflexivity.
  repeat split; try assumption;
    apply (volume_spike_over_zero_average (flat_weeks 30 10 0) None H1 H2 H3).
Defined.

(* ===================================================================== *)
(** ** Claims on is_weinstein_buy *)
(* ===================================================================== *)

(** C7.  On a frame with fewer than [SMA_WEEKS + BASE_LOOKBACK_WEEKS] rows
    [is_weinstein_buy] returns normally (it raises nothing), with the
    decision not-passing and no snapshot.  This holds for every frame,
    whatever its columns contain. *)
Theorem insufficient_history_is_no_decision (f : IndFrame) :
  len f < SMA_WEEKS + BASE_LOOKBACK_WEEKS ->
  is_weinstein_buy f = Ok (false, None).
Proof.
  intros H. unfold is_weinstein_buy.
  destruct (Nat.ltb_spec (len f) (SMA_WEEKS + BASE_LOOKBACK_WEEKS));
    [reflexivity | lia].
Qed.

(** 49 weeks, one short of the 50 required. *)
Lemma insufficient_history_is_no_decision_witness :
  len (compute_indicators (flat_weeks 49 10 100) None)
    < SMA_WEEKS + BASE_LOOKBACK_WEEKS
  /\ is_weinstein_buy (compute_indicators (flat_weeks 49 10 100) None)
     = Ok (false, None).
Proof.
  split.
  - vm_compute. lia.
  - apply insufficient_history_is_no_decision. vm_compute. lia.
Defined.

(** C2, as stated, fails: on 50 flat weeks the decision is not-passing and
    the snapshot is returned all the same. *)
Lemma snapshot_returned_on_fail :
  ~ no_snapshot_unless_passing
      (compute_indicators (flat_weeks 50 10 100) None).
Proof.
  intros H.
  specialize (H false (Some (snapshot
    (compute_indicators (flat_weeks 50 10 100) None)))).
  assert (E : is_weinstein_buy
                (compute_indicators (flat_weeks 50 10 100) None)
              = Ok (false, Some (snapshot
                  (compute_indicators (flat_weeks 50 10 100) None))))
    by (vm_compute; reflexivity).
  specialize (H E eq_refl). discriminate H.
Qed.

(** C2, amended.  [is_weinstein_buy] returns no snapshot exactly when the
    frame has fewer than [SMA_WEEKS + BASE_LOOKBACK_WEEKS] rows.  With
    that many rows it returns the snapshot of the most recent row (its raw
    and derived cells and the prior high), whether the decision is passing
    or not; so a passing decision always comes with its snapshot.  The
    loop of [run_screener] keeps a snapshot only when the decision is
    passing. *)
Theorem snapshot_iff_enough_rows (f : IndFrame) :
  (len f < SMA_WEEKS + BASE_LOOKBACK_WEEKS ->
   is_weinstein_buy f = Ok (false, None))
  /\ (SMA_WEEKS + BASE_LOOKBACK_WEEKS <= len f ->
      exists meets, is_weinstein_buy f = Ok (meets, Some (snapshot f)))
  /\ (forall snap, is_weinstein_buy f = Ok (true, snap) ->
      snap = Some (snapshot f))
  /\ (forall spy_weekly t df_daily c,
      f = compute_indicators (to_weekly df_daily) (Some spy_weekly) ->
      screen_ticker spy_weekly t df_daily = Some c ->
      is_weinstein_buy f = Ok (true, Some (details c))).
Proof.
  repeat split.
  - intros H. unfold is_weinstein_buy.
    destruct (Nat.ltb_spec (len f) (SMA_WEEKS + BASE_LOOKBACK_WEEKS));
      [reflexivity | lia].
  - intros H. exists (rule_on_last_row f).
    now apply is_weinstein_buy_enough_rows.
  - intros snap E.
    destruct (Nat.lt_ge_cases (len f) (SMA_WEEKS + BASE_LOOKBACK_WEEKS))
      as [Hs|Hl].
    + unfold is_weinstein_buy in E.
      destruct (Nat.ltb_spec (len f) (SMA_WEEKS + BASE_LOOKBACK_WEEKS));
        [discriminate | lia].
    + rewrite (is_weinstein_buy_enough_rows f Hl) in E. now inversion E.
  - intros spy_weekly t df_daily c -> Hs. unfold screen_ticker in Hs.
    destruct df_daily as [|b r]; [discriminate|].
    destruct (is_weinstein_buy _) as [[[|] [d|]]|e]; try discriminate.
    now inversion Hs.
Qed.

(** Both sides of the threshold: 49 weeks give no snapshot, 50 weeks give
    one although the decision is not-passing. *)
Lemma snapshot_iff_enough_rows_witness :
  is_weinstein_buy (compute_indicators (flat_weeks 49 10 100) None)
    = Ok (false, None)
  /\ exists meets,
       is_weinstein_buy (compute_indicators (flat_weeks 50 10 100) None)
       = Ok (meets,
             Some (snapshot (compute_indicators (flat_weeks 50 10 100) None))).
Proof.
  split.
  - apply (snapshot_iff_enough_rows
             (compute_indicators (flat_weeks 49 10 100) None)).
    vm_compute. lia.
  - apply (snapshot_iff_enough_rows
             (compute_indicators (flat_weeks 50 10 100) None)).
    vm_compute. lia.
Defined.

(** C1, as stated, fails: the frame computed without a benchmark from
    [breakout_weeks] passes, and its relative-strength slope has no
    value, so the fifth condition of the claim is false although relative
    strength is required. *)
Lemma passes_without_rs_column :
  ~ passes_iff_five_conditions (compute_indicators breakout_weeks None).
Proof.
  intros (meets & snap & E & H).
  assert (E' : is_weinstein_buy (compute_indicators breakout_weeks None)
               = Ok (true, Some (snapshot
                   (compute_indicators breakout_weeks None))))
    by (vm_compute; reflexivity).
  rewrite E' in E. inversion E; subst meets.
  destruct H as [H _]. destruct (H eq_refl) as (_ & _ & _ & _ & Hrs).
  specialize (Hrs eq_refl). vm_compute in Hrs. discriminate Hrs.
Qed.

(** C1, amended.  On a frame of [compute_indicators] with at least
    [SMA_WEEKS + BASE_LOOKBACK_WEEKS] rows, [is_weinstein_buy] returns
    normally, and its decision is passing iff on the most recent row:
    (1) the close is strictly above the maximum close of the
    [BASE_LOOKBACK_WEEKS] rows before it, (2) the close is strictly above
    the trend average, (3) the trend slope is strictly positive, (4) the
    volume-spike flag is true, and (5) when relative strength is required
    and the frame has a relative-strength slope column, that slope is
    strictly positive.  A comparison on a cell without value is false. *)
Theorem passes_iff_conditions_on_last_row (weekly : list Bar)
  (benchmark_weekly : option (list Bar)) :
  SMA_WEEKS + BASE_LOOKBACK_WEEKS <= length weekly ->
  let f := compute_indicators weekly benchmark_weekly in
  (exists meets snap,
     is_weinstein_buy f = Ok (meets, Some snap)
     /\ (meets = true <->
         breakout_at f (last_row f)
         /\ above_trend_at f (last_row f)
         /\ rising_trend_at f (last_row f)
         /\ volume_spike_at f (last_row f)
         /\ (RS_REQUIRED = true -> has_RS_slope f = true ->
             rs_rising_at f (last_row f))))
  /\ false_without_value.
Proof.
  intros Hn f. pose proof enough_rows_positive as Hp. split.
  - exists (rule_on_last_row f), (snapshot f). split.
    + apply is_weinstein_buy_enough_rows. unfold f. rewrite ci_len. exact Hn.
    + unfold f. rewrite rule_on_computed_frame by lia. tauto.
  - unfold false_without_value.
    split; [intros x; apply gt_nan_r | split; intros y; reflexivity].
Qed.

(** The breakout frame with a flat benchmark passes with all five. *)
Lemma passes_iff_conditions_on_last_row_witness :
  SMA_WEEKS + BASE_LOOKBACK_WEEKS <= length breakout_weeks
  /\ exists meets snap,
       is_weinstein_buy
         (compute_indicators breakout_weeks (Some (flat_weeks 50 5 1)))
       = Ok (meets, Some snap).
Proof.
  split.
  - vm_compute. lia.
  - destruct (passes_iff_conditions_on_last_row breakout_weeks
                (Some (flat_weeks 50 5 1))) as ((meets & snap & E & _) & _).
    + vm_compute. lia.
    + exists meets, snap. exact E.
Defined.

(** C10, as stated, fails: the 40 weeks of [breakout_weeks_40], computed
    without a benchmark, meet the breakout, above-trend, rising-trend and
    volume-spike conditions on the last row, and the decision is
    not-passing, for want of 50 rows. *)
Lemma four_conditions_on_a_short_history :
  ~ passes_whenever_four_conditions
      (compute_indicators breakout_weeks_40 None).
Proof.
  intros H.
  assert (Hc : breakout_at (compute_indicators breakout_weeks_40 None)
                 (last_row (compute_indicators breakout_weeks_40 None))
               /\ above_trend_at (compute_indicators breakout_weeks_40 None)
                    (last_row (compute_indicators breakout_weeks_40 None))
               /\ rising_trend_at (compute_indicators breakout_weeks_40 None)
                    (last_row (compute_indicators breakout_weeks_40 None))
               /\ volume_spike_at (compute_indicators breakout_weeks_40 None)
                    (last_row (compute_indicators breakout_weeks_40 None)))
    by (repeat split; vm_compute; reflexivity).
  destruct (H Hc) as [snap E].
  assert (E' : is_weinstein_buy (compute_indicators breakout_weeks_40 None)
               = Ok (false, None)) by (vm_compute; reflexivity).
  rewrite E' in E. discriminate E.
Qed.

(** C10, amended.  A frame computed without a benchmark has no relative-strength
    slope column; on such a frame with at least
    [SMA_WEEKS + BASE_LOOKBACK_WEEKS] rows the decision is passing iff
    the breakout, above-trend, rising-trend and volume-spike conditions
    hold on the most recent row, although [RS_REQUIRED] is on. *)
Theorem without_benchmark_rs_is_satisfied (weekly : list Bar) :
  SMA_WEEKS + BASE_LOOKBACK_WEEKS <= length weekly ->
  let f := compute_indicators weekly None in
  has_RS_slope f = false
  /\ RS_REQUIRED = true
  /\ exists meets snap,
       is_weinstein_buy f = Ok (meets, Some snap)
       /\ (meets = true <->
           breakout_at f (last_row f)
           /\ above_trend_at f (last_row f)
           /\ rising_trend_at f (last_row f)
           /\ volume_spike_at f (last_row f)).
Proof.
  intros Hn f. pose proof enough_rows_positive as Hp.
  split; [reflexivity|]. split; [reflexivity|].
  exists (rule_on_last_row f), (snapshot f). split.
  - apply is_weinstein_buy_enough_rows. unfold f. rewrite ci_len. exact Hn.
  - unfold f. rewrite rule_on_computed_frame by lia.
    change (has_RS_slope (compute_indicators weekly None)) with false.
    split; [tauto | intros H; repeat split; try tauto; discriminate].
Qed.

(** The breakout frame without benchmark passes. *)
Lemma without_benchmark_rs_is_satisfied_witness :
  SMA_WEEKS + BASE_LOOKBACK_WEEKS <= length breakout_weeks
  /\ exists meets snap,
       is_weinstein_buy (compute_indicators breakout_weeks None)
       = Ok (meets, Some snap).
Proof.
  split.
  - vm_compute. lia.
  - destruct (without_benchmark_rs_is_satisfied breakout_weeks)
      as (_ & _ & meets & snap & E & _).
    + vm_compute. lia.
    + exists meets, snap. exact E.
Defined.

(* ===================================================================== *)
(** ** Relative strength *)
(* ===================================================================== *)

(** A filled cell is the cell itself when it has a value, the filled cell
    of the row above otherwise. *)
Lemma ffill_from_nth (xs : list num) :
  forall prev t, t < length xs ->
    cell (ffill_from prev xs) t =
    match cell xs t with
    | Some q => Some q
    | None => match t with
              | 0 => prev
              | S p => cell (ffill_from prev xs) p
              end
    end.
Proof.
  unfold cell.
  induction xs as [|x r IH]; intros prev t Ht; simpl in Ht; [lia|].
  destruct t as [|t].
  - simpl. now destruct x.
  - cbn [ffill_from nth]. rewrite IH by lia.
    destruct (nth t r None) as [q|] eqn:E; [reflexivity|].
    destruct t as [|p]; [|reflexivity].
    destruct r as [|y r']; [simpl in Ht; lia|].
    simpl in E. subst y. reflexivity.
Qed.

Lemma find_date_unique (bw : list Bar) (b : Bar) :
  NoDup (map date bw) -> In b bw ->
  find (fun x => (date x =? date b)%Z) bw = Some b.
Proof.
  induction bw as [|x r IH]; intros Hnd Hin; [contradiction|].
  simpl in Hnd. inversion Hnd as [|? ? Hx Hr]; subst.
  simpl. destruct Hin as [->|Hin].
  - now rewrite Z.eqb_refl.
  - destruct (Z.eqb_spec (date x) (date b)) as [E|_].
    + exfalso. apply Hx. rewrite E. now apply in_map.
    + now apply IH.
Qed.

Lemma reindex_Close_nth (bw : list Bar) (idx : list Z) (t : nat) :
  t < length idx ->
  cell (reindex_Close bw idx) t =
  match find (fun x => (date x =? nth t idx 0%Z)%Z) bw with
  | Some x => Close x
  | None => None
  end.
Proof.
  intros Ht. unfold cell, reindex_Close.
  set (g := fun d => match find (fun x => (date x =? d)%Z) bw with
                     | Some x => Close x
                     | None => None
                     end).
  rewrite nth_indep with (d' := g 0%Z) by now rewrite length_map.
  apply (map_nth g).
Qed.

Lemma reindex_has (bw : list Bar) (idx : list Z) (k : nat) (b : Bar) :
  NoDup (map date bw) -> k < length idx ->
  In b bw -> date b = nth k idx 0%Z ->
  cell (reindex_Close bw idx) k = Close b.
Proof.
  intros Hnd Hk Hin Hd. rewrite reindex_Close_nth by exact Hk.
  rewrite <- Hd. now rewrite find_date_unique.
Qed.

Lemma reindex_lacks (bw : list Bar) (idx : list Z) (k : nat) :
  k < length idx ->
  (forall b, In b bw -> date b = nth k idx 0%Z -> Close b = None) ->
  cell (reindex_Close bw idx) k = None.
Proof.
  intros Hk Hlack. rewrite reindex_Close_nth by exact Hk.
  destruct (find _ bw) as [x|] eqn:Ef; [|reflexivity].
  apply find_some in Ef. destruct Ef as [Hin Hd].
  apply Z.eqb_eq in Hd. now apply Hlack.
Qed.

(** Forward fill carries the last valid cell down to row [t]. *)
Lemma ffill_carries (xs : list num) (j : nat) (q : Q) :
  cell xs j = Some q ->
  forall t, j <= t -> t < length xs ->
    (forall k, j < k <= t -> cell xs k = None) ->
    cell (ffill xs) t = Some q.
Proof.
  intros Hj t. induction t as [|p IH]; intros Hjt Ht Hgap.
  - assert (j = 0) by lia. subst j.
    unfold ffill. rewrite ffill_from_nth by exact Ht. now rewrite Hj.
  - unfold ffill. rewrite ffill_from_nth by exact Ht.
    destruct (Nat.eq_dec j (S p)) as [->|Hne].
    + now rewrite Hj.
    + rewrite (Hgap (S p)) by lia.
      apply IH; [lia | lia |]. intros k Hk. apply Hgap. lia.
Qed.

Lemma ffill_nothing_known (xs : list num) :
  forall t, t < length xs ->
    (forall k, k <= t -> cell xs k = None) ->
    cell (ffill xs) t = None.
Proof.
  induction t as [|p IH]; intros Ht Hgap;
    unfold ffill; rewrite ffill_from_nth by exact Ht;
    rewrite Hgap by lia; [reflexivity|].
  apply IH; [lia|]. intros k Hk. apply Hgap. lia.
Qed.

(** The three relative-strength columns, cell by cell. *)
Lemma relative_strength_cells (weekly bw : list Bar) (t : nat) :
  t < length weekly ->
  NoDup (map date bw) ->
  exists c,
    rs (compute_indicators weekly (Some bw)) = Some c
    /\ (forall b q, In b bw -> date b = date_at weekly t ->
        Close b = Some q -> cell (B_Close c) t = Some q)
    /\ ((forall b, In b bw -> date b = date_at weekly t ->
         Close b = None) ->
        cell (B_Close c) t =
        match t with 0 => None | S p => cell (B_Close c) p end)
    /\ (forall j b q, j <= t -> In b bw -> date b = date_at weekly j ->
        Close b = Some q ->
        (forall k b', j < k <= t -> In b' bw ->
                      date b' = date_at weekly k -> Close b' = None) ->
        cell (B_Close c) t = Some q)
    /\ ((forall k b', k <= t -> In b' bw ->
                      date b' = date_at weekly k -> Close b' = None) ->
        cell (B_Close c) t = None)
    /\ fcell (RS c) t =
       Float.div (cell (map Close weekly) t) (cell (B_Close c) t)
    /\ (t < RS_LOOKBACK -> fcell (RS_slope c) t = NaN)
    /\ (RS_LOOKBACK <= t ->
        fcell (RS_slope c) t =
        Float.sub (fcell (RS c) t) (fcell (RS c) (t - RS_LOOKBACK)))
    /\ RS_LOOKBACK = 8.
Proof.
  intros Ht Hnd.
  set (raw := reindex_Close bw (map date weekly)).
  set (aligned := ffill raw).
  set (ratio := map2 Float.div (map Close weekly) aligned).
  exists {| B_Close := aligned; RS := ratio;
            RS_slope := fdiff RS_LOOKBACK ratio |}.
  cbn [B_Close RS RS_slope].
  assert (Hidx : length (map date weekly) = length weekly)
    by apply length_map.
  assert (Hraw : length raw = length weekly)
    by (unfold raw, reindex_Close; now rewrite !length_map).
  assert (Hal : cell aligned t =
                match cell raw t with
                | Some q => Some q
                | None => match t with
                          | 0 => None
                          | S p => cell aligned p
                          end
                end) by (apply ffill_from_nth; lia).
  assert (Hra : length ratio = length weekly) by apply ci_RS_length.
  assert (Hhas : forall k b, k <= t -> In b bw ->
                   date b = date_at weekly k -> cell raw k = Close b).
  { intros k b Hk Hin Hd. apply reindex_has; auto. lia. }
  assert (Hlacks : forall k, k <= t ->
                   (forall b, In b bw -> date b = date_at weekly k ->
                              Close b = None) ->
                   cell raw k = None).
  { intros k Hk Hl. apply reindex_lacks; auto. lia. }
  split; [reflexivity|].
  split; [|split; [|split; [|split; [|split; [|split; [|split]]]]]].
  - intros b q Hin Hd Hc. rewrite Hal, (Hhas t b) by auto. now rewrite Hc.
  - intros Hlack. rewrite Hal, (Hlacks t) by auto. reflexivity.
  - intros j b q Hj Hin Hd Hc Hgap.
    apply ffill_carries with (j := j); try lia.
    + rewrite (Hhas j b) by auto. exact Hc.
    + intros k Hk. apply Hlacks; [lia|].
      intros b' Hin' Hd'. now apply (Hgap k).
  - intros Hnone. apply ffill_nothing_known; [lia|].
    intros k Hk. apply Hlacks; [exact Hk|].
    intros b' Hin' Hd'. now apply (Hnone k).
  - unfold fcell, ratio, cell.
    apply map2_nth.
    + now rewrite length_map.
    + rewrite length_map. symmetry. apply ci_B_Close_length.
  - intros Hlt. rewrite fdiff_nth by (rewrite Hra; exact Ht).
    destruct (Nat.ltb_spec t RS_LOOKBACK); [reflexivity | lia].
  - intros Hge. rewrite fdiff_nth by (rewrite Hra; exact Ht).
    destruct (Nat.ltb_spec t RS_LOOKBACK); [lia | reflexivity].
  - reflexivity.
Qed.

Lemma div_finite (c b : Q) :
  ~ (b == 0)%Q ->
  exists q, Float.div (Some c) (Some b) = Fin q /\ (q * b == c)%Q.
Proof.
  intros Hb. unfold Float.div.
  destruct (Qeq_bool b 0) eqn:E; [apply Qeq_bool_iff in E; contradiction|].
  exists (c / b)%Q. split; [reflexivity|]. field. exact Hb.
Qed.

Lemma div_by_zero (c b : Q) :
  (b == 0)%Q ->
  ((0 < c)%Q -> Float.div (Some c) (Some b) = PInf)
  /\ ((c < 0)%Q -> Float.div (Some c) (Some b) = NInf)
  /\ ((c == 0)%Q -> Float.div (Some c) (Some b) = NaN).
Proof.
  intros Hb. unfold Float.div.
  assert (E : Qeq_bool b 0 = true) by now apply Qeq_bool_iff.
  rewrite E. repeat split; intros Hc.
  - destruct (Qeq_bool c 0) eqn:Ec.
    + apply Qeq_bool_iff in Ec. rewrite Ec in Hc.
      exfalso. exact (Qlt_irrefl _ Hc).
    + apply Qltb_iff in Hc. now rewrite Hc.
  - destruct (Qeq_bool c 0) eqn:Ec.
    + apply Qeq_bool_iff in Ec. rewrite Ec in Hc.
      exfalso. exact (Qlt_irrefl _ Hc).
    + destruct (Qltb 0 c) eqn:El; [|reflexivity].
      apply Qltb_iff in El. exfalso.
      exact (Qlt_irrefl _ (Qlt_trans _ _ _ El Hc)).
  - apply Qeq_bool_iff in Hc. now rewrite Hc.
Qed.

(** C4, as stated, fails: the instrument did not trade in weeks 1 and 2;
    in week 3, which the benchmark lacks, the aligned close is 5, the
    close carried from the instrument's row above, while the benchmark's
    last known close is 7. *)
Lemma carried_close_is_not_last_known :
  ~ aligned_to_last_known_close sparse_instrument three_week_benchmark.
Proof.
  intros H.
  specialize (H _ (ci_rs sparse_instrument three_week_benchmark) 1).
  assert (Hl : 1 < length sparse_instrument) by (vm_compute; lia).
  specialize (H Hl). vm_compute in H. discriminate H.
Qed.

(** C4, amended.  With a benchmark, in every instrument week [t]:
    the aligned benchmark close [B_Close] is the benchmark's own close of
    that week-end date when the benchmark has one, and otherwise (a week
    the benchmark lacks) the aligned close of the instrument's row above;
    so it is the benchmark's close of the latest instrument week up to
    [t] for which the benchmark has a close, carried forward along the
    instrument's rows, and has no value when there is no such week.  The
    ratio [RS] is the instrument's close divided by that aligned close: a
    number [q] with [q * aligned = close] when both have a value and the
    aligned close is not zero, an infinity or no value by a zero aligned
    close, no value when either is missing.  The slope [RS_slope] is the
    ratio of row [t] minus the ratio of row [t - RS_LOOKBACK], with
    [RS_LOOKBACK] = 8, and has no value on the rows that have fewer than
    [RS_LOOKBACK] rows above them.  (The benchmark's week-end dates are
    distinct, as pandas requires.) *)
Theorem relative_strength_columns (weekly bw : list Bar) (t : nat) :
  t < length weekly ->
  NoDup (map date bw) ->
  exists c,
    rs (compute_indicators weekly (Some bw)) = Some c
    /\ (forall b q, In b bw -> date b = date_at weekly t ->
        Close b = Some q -> cell (B_Close c) t = Some q)
    /\ ((forall b, In b bw -> date b = date_at weekly t ->
         Close b = None) ->
        cell (B_Close c) t =
        match t with 0 => None | S p => cell (B_Close c) p end)
    /\ (forall j b q, j <= t -> In b bw -> date b = date_at weekly j ->
        Close b = Some q ->
        (forall k b', j < k <= t -> In b' bw ->
                      date b' = date_at weekly k -> Close b' = None) ->
        cell (B_Close c) t = Some q)
    /\ ((forall k b', k <= t -> In b' bw ->
                      date b' = date_at weekly k -> Close b' = None) ->
        cell (B_Close c) t = None)
    /\ fcell (RS c) t =
       Float.div (cell (map Close weekly) t) (cell (B_Close c) t)
    /\ (forall close aligned,
        cell (map Close weekly) t = Some close ->
        cell (B_Close c) t = Some aligned ->
        (~ (aligned == 0)%Q ->
         exists q, fcell (RS c) t = Fin q /\ (q * aligned == close)%Q)
        /\ ((aligned == 0)%Q ->
            ((0 < close)%Q -> fcell (RS c) t = PInf)
            /\ ((close < 0)%Q -> fcell (RS c) t = NInf)
            /\ ((close == 0)%Q -> fcell (RS c) t = NaN)))
    /\ (cell (map Close weekly) t = None \/ cell (B_Close c) t = None ->
        fcell (RS c) t = NaN)
    /\ (t < RS_LOOKBACK -> fcell (RS_slope c) t = NaN)
    /\ (RS_LOOKBACK <= t ->
        fcell (RS_slope c) t =
        Float.sub (fcell (RS c) t) (fcell (RS c) (t - RS_LOOKBACK)))
    /\ (forall a b, RS_LOOKBACK <= t ->
        fcell (RS c) t = Fin a ->
        fcell (RS c) (t - RS_LOOKBACK) = Fin b ->
        exists d, fcell (RS_slope c) t = Fin d /\ (d == a - b)%Q)
    /\ RS_LOOKBACK = 8.
Proof.
  intros Ht Hnd.
  destruct (@relative_strength_cells weekly bw t Ht Hnd)
    as (c & Hrs & H1 & H2 & H3 & H4 & Hdiv & Hlt & Hge & Hk).
  exists c. split; [exact Hrs|]. split; [exact H1|]. split; [exact H2|].
  split; [exact H3|]. split; [exact H4|]. split; [exact Hdiv|].
  split.
  { intros close aligned Hc Ha. rewrite Hdiv, Hc, Ha. split.
    - apply div_finite.
    - apply div_by_zero. }
  split.
  { intros [Hn|Hn]; rewrite Hdiv, Hn; [reflexivity|].
    now destruct (cell (map Close weekly) t). }
  split; [exact Hlt|]. split; [exact Hge|]. split; [|exact Hk].
  intros a b Hk8 Ea Eb. rewrite (Hge Hk8), Ea, Eb.
  exists (a - b)%Q. split; reflexivity.
Qed.

(** Ten instrument weeks against a benchmark that lacks week 3: in that
    week the aligned close is the 5 of week 2, carried forward. *)
Lemma relative_strength_columns_witness :
  3 < length (flat_weeks 10 10 100)
  /\ NoDup (map date gap_benchmark)
  /\ exists c,
       rs (compute_indicators (flat_weeks 10 10 100) (Some gap_benchmark))
       = Some c
       /\ cell (B_Close c) 3 = Some 5%Q.
Proof.
  assert (H1 : 3 < length (flat_weeks 10 10 100)) by (vm_compute; lia).
  assert (H2 : NoDup (map date gap_benchmark)).
  { vm_compute. repeat constructor; simpl; intuition discriminate. }
  split; [exact H1|]. split; [exact H2|].
  destruct (@relative_strength_columns (flat_weeks 10 10 100)
              gap_benchmark 3 H1 H2) as (c & E & _ & _ & Hcarry & _).
  exists c. split; [exact E|].
  apply (Hcarry 2 (week_bar 2 5 1) 5%Q).
  - lia.
  - vm_compute. right. right. left. reflexivity.
  - vm_compute. reflexivity.
  - reflexivity.
  - intros k b' Hk Hin Hd. assert (k = 3) by lia. subst k.
    vm_compute in Hd. vm_compute in Hin.
    destruct Hin as [<-|[<-|[<-|[<-|[]]]]]; discriminate Hd.
Defined.

(* ===================================================================== *)
(** ** Sorting by a key *)
(* ===================================================================== *)

Section SortFacts.

Variable A : Type.
Variable key : A -> Z.

Let le_key (a b : A) : Prop := (key a <= key b)%Z.

Lemma insert_by_perm (x : A) (s : list A) :
  Permutation (insert_by key x s) (x :: s).
Proof.
  induction s as [|y r IH]; simpl; [reflexivity|].
  destruct (key x <=? key y)%Z; [reflexivity|].
  rewrite IH. apply perm_swap.
Qed.

Lemma sort_by_perm (xs : list A) : Permutation (sort_by key xs) xs.
Proof.
  induction xs as [|x r IH]; simpl; [reflexivity|].
  rewrite insert_by_perm. now constructor.
Qed.

Lemma insert_by_sorted (x : A) (s : list A) :
  StronglySorted le_key s -> StronglySorted le_key (insert_by key x s).
Proof.
  induction 1 as [|y r Hr IH Hy]; simpl.
  - repeat constructor.
  - destruct (Z.leb_spec (key x) (key y)) as [Hle|Hgt].
    + constructor; [now constructor|].
      constructor; [exact Hle|].
      eapply Forall_impl; [|exact Hy].
      intros z Hz. unfold le_key in *. lia.
    + constructor; [exact IH|].
      apply (Permutation_Forall (Permutation_sym (insert_by_perm x r))).
      constructor; [unfold le_key; lia | exact Hy].
Qed.

Lemma sort_by_sorted (xs : list A) : StronglySorted le_key (sort_by key xs).
Proof.
  induction xs as [|x r IH]; simpl; [constructor|].
  now apply insert_by_sorted.
Qed.

End SortFacts.

Section SortedFacts.

Variable A : Type.
Variable R : A -> A -> Prop.

Lemma StronglySorted_filter (p : A -> bool) (l : list A) :
  StronglySorted R l -> StronglySorted R (filter p l).
Proof.
  induction 1 as [|x r Hr IH Hx]; simpl; [constructor|].
  destruct (p x); [|exact IH].
  constructor; [exact IH|].
  apply Forall_forall. intros y Hy. apply filter_In in Hy.
  rewrite Forall_forall in Hx. now apply Hx.
Qed.

Lemma StronglySorted_app (l1 l2 : list A) :
  StronglySorted R l1 -> StronglySorted R l2 ->
  (forall a b, In a l1 -> In b l2 -> R a b) ->
  StronglySorted R (l1 ++ l2).
Proof.
  induction 1 as [|x r Hr IH Hx]; intros H2 Hc; simpl; [exact H2|].
  constructor.
  - apply IH; [exact H2|]. intros a b Ha Hb. apply Hc; [now right|exact Hb].
  - apply Forall_app. split; [exact Hx|].
    apply Forall_forall. intros b Hb. apply Hc; [now left|exact Hb].
Qed.

Lemma StronglySorted_rev (l : list A) :
  StronglySorted (fun a b => R b a) l -> StronglySorted R (rev l).
Proof.
  induction 1 as [|x r Hr IH Hx]; simpl; [constructor|].
  apply StronglySorted_app; [exact IH | repeat constructor |].
  intros a b Ha [<-|[]]. apply in_rev in Ha.
  rewrite Forall_forall in Hx. now apply Hx.
Qed.

Lemma StronglySorted_weaken (R' : A -> A -> Prop) (l : list A) :
  (forall a b, In a l -> In b l -> R a b -> R' a b) ->
  StronglySorted R l -> StronglySorted R' l.
Proof.
  intros Himp H. induction H as [|x r Hr IH Hx]; [constructor|].
  constructor.
  - apply IH. intros a b Ha Hb. apply Himp; now right.
  - rewrite Forall_forall in *. intros y Hy.
    apply Himp; [now left | now right | now apply Hx].
Qed.

End SortedFacts.

Lemma StronglySorted_map_filter (A : Type) (h : A -> Z) (p : A -> bool)
  (l : list A) :
  StronglySorted Z.lt (map h l) -> StronglySorted Z.lt (map h (filter p l)).
Proof.
  induction l as [|x r IH]; simpl; intros H; [constructor|].
  inversion H as [|? ? Hr Hx]; subst.
  destruct (p x); simpl; [|now apply IH].
  constructor; [now apply IH|].
  rewrite Forall_forall in *. intros y Hy.
  apply in_map_iff in Hy. destruct Hy as (b & <- & Hb).
  apply filter_In in Hb. apply Hx. apply in_map. tauto.
Qed.

(* ===================================================================== *)
(** ** Maxima and minima of the valid cells *)
(* ===================================================================== *)

Lemma valid_In (xs : list num) (q : Q) : In q (valid xs) <-> In (Some q) xs.
Proof.
  induction xs as [|[a|] r IH]; simpl; [tauto| |].
  - rewrite IH. split; intros [H|H]; auto; left; congruence.
  - rewrite IH. split; [auto | intros [H|H]; [discriminate | exact H]].
Qed.

Lemma Qmax_cases (a b : Q) :
  (Qmax a b = a \/ Qmax a b = b) /\ (a <= Qmax a b)%Q /\ (b <= Qmax a b)%Q.
Proof.
  unfold Qmax. destruct (Qle_bool a b) eqn:E.
  - apply Qle_bool_iff in E. repeat split; auto using Qle_refl.
  - repeat split; auto using Qle_refl.
    apply Qlt_le_weak, Qnot_le_lt. intros H.
    apply Qle_bool_iff in H. congruence.
Qed.

Lemma Qmin_cases (a b : Q) :
  (Qmin a b = a \/ Qmin a b = b) /\ (Qmin a b <= a)%Q /\ (Qmin a b <= b)%Q.
Proof.
  unfold Qmin. destruct (Qle_bool a b) eqn:E.
  - apply Qle_bool_iff in E. repeat split; auto using Qle_refl.
  - repeat split; auto using Qle_refl.
    apply Qlt_le_weak, Qnot_le_lt. intros H.
    apply Qle_bool_iff in H. congruence.
Qed.

Lemma fold_Qmax_spec (r : list Q) :
  forall q, In (fold_left Qmax r q) (q :: r)
            /\ forall x, In x (q :: r) -> (x <= fold_left Qmax r q)%Q.
Proof.
  induction r as [|y r IH]; intros q.
  - simpl. split; [now left|]. intros x [<-|[]]. apply Qle_refl.
  - cbn [fold_left]. destruct (IH (Qmax q y)) as [Hin Hub].
    destruct (Qmax_cases q y) as (Hc & Hq & Hy). split.
    + destruct Hin as [Hin|Hin]; [|now right; right].
      rewrite <- Hin. destruct Hc as [-> | ->]; [now left | now right; left].
    + intros x [<-|[<-|Hx]].
      * eapply Qle_trans; [exact Hq|]. apply Hub. now left.
      * eapply Qle_trans; [exact Hy|]. apply Hub. now left.
      * apply Hub. now right.
Qed.

Lemma fold_Qmin_spec (r : list Q) :
  forall q, In (fold_left Qmin r q) (q :: r)
            /\ forall x, In x (q :: r) -> (fold_left Qmin r q <= x)%Q.
Proof.
  induction r as [|y r IH]; intros q.
  - simpl. split; [now left|]. intros x [<-|[]]. apply Qle_refl.
  - cbn [fold_left]. destruct (IH (Qmin q y)) as [Hin Hlb].
    destruct (Qmin_cases q y) as (Hc & Hq & Hy). split.
    + destruct Hin as [Hin|Hin]; [|now right; right].
      rewrite <- Hin. destruct Hc as [-> | ->]; [now left | now right; left].
    + intros x [<-|[<-|Hx]].
      * eapply Qle_trans; [|exact Hq]. apply Hlb. now left.
      * eapply Qle_trans; [|exact Hy]. apply Hlb. now left.
      * apply Hlb. now right.
Qed.

(** [max_valid] is a cell of the series and bounds every valid cell. *)
Lemma max_valid_spec (xs : list num) (m : Q) :
  max_valid xs = Some m ->
  In (Some m) xs /\ forall q, In (Some q) xs -> (q <= m)%Q.
Proof.
  unfold max_valid. destruct (valid xs) as [|q r] eqn:E; [discriminate|].
  intros H. inversion H; subst. destruct (fold_Qmax_spec r q) as [Hin Hub].
  rewrite <- E in Hin, Hub. split.
  - now apply valid_In.
  - intros x Hx. apply Hub. now apply valid_In.
Qed.

Lemma min_valid_spec (xs : list num) (m : Q) :
  min_valid xs = Some m ->
  In (Some m) xs /\ forall q, In (Some q) xs -> (m <= q)%Q.
Proof.
  unfold min_valid. destruct (valid xs) as [|q r] eqn:E; [discriminate|].
  intros H. inversion H; subst. destruct (fold_Qmin_spec r q) as [Hin Hlb].
  rewrite <- E in Hin, Hlb. split.
  - now apply valid_In.
  - intros x Hx. apply Hlb. now apply valid_In.
Qed.

(* ===================================================================== *)
(** ** to_weekly *)
(* ===================================================================== *)

Lemma week_end_friday (d : Z) : (week_end d mod 7 = 1)%Z.
Proof.
  unfold week_end. rewrite Zplus_mod_idemp_r.
  replace (d + (1 - d))%Z with 1%Z by lia. reflexivity.
Qed.

Lemma week_end_bounds (d : Z) : (d <= week_end d < d + 7)%Z.
Proof.
  unfold week_end. pose proof (Z.mod_pos_bound (1 - d) 7). lia.
Qed.

Lemma week_labels_friday (lo hi f : Z) :
  (lo mod 7 = 1)%Z -> In f (week_labels lo hi) -> (f mod 7 = 1)%Z.
Proof.
  intros Hlo Hin. unfold week_labels in Hin.
  apply in_map_iff in Hin. destruct Hin as (k & <- & _).
  rewrite Z.add_mod, Z.mul_comm, Z.mod_mul, Z.add_0_r, Z.mod_mod by lia.
  exact Hlo.
Qed.

Lemma labels_increasing (lo : Z) (n : nat) :
  forall a,
    StronglySorted Z.lt (map (fun k => (lo + 7 * Z.of_nat k)%Z) (seq a n)).
Proof.
  induction n as [|n IH]; intros a; cbn [seq map]; constructor;
    [apply IH|].
  apply Forall_forall. intros y Hy. apply in_map_iff in Hy.
  destruct Hy as (k & <- & Hk). apply in_seq in Hk. lia.
Qed.

(** The groups of [resample_W_FRI]: one per label, holding the bars of
    that week in index order. *)
Lemma resample_groups (df : list Bar) (g : Z * list Bar) :
  In g (resample_W_FRI df) ->
  (fst g mod 7 = 1)%Z /\ snd g = week_group df (fst g).
Proof.
  unfold resample_W_FRI, week_group.
  destruct (sort_by date df) as [|b0 s] eqn:E; [contradiction|].
  intros Hin. apply in_map_iff in Hin. destruct Hin as (f & <- & Hf).
  split; [|reflexivity]. simpl.
  eapply week_labels_friday; [|exact Hf]. apply week_end_friday.
Qed.

Lemma resample_labels (df : list Bar) :
  StronglySorted Z.lt (map fst (resample_W_FRI df)).
Proof.
  unfold resample_W_FRI.
  destruct (sort_by date df) as [|b0 s]; [constructor|].
  rewrite map_map. cbn [fst]. rewrite map_id. apply labels_increasing.
Qed.

Lemma to_weekly_In (df : list Bar) (wb : Bar) :
  In wb (to_weekly df) ->
  wb = agg (date wb, week_group df (date wb))
  /\ (date wb mod 7 = 1)%Z /\ complete wb = true.
Proof.
  unfold to_weekly, dropna. intros Hin.
  apply filter_In in Hin. destruct Hin as [Hin Hc].
  apply in_map_iff in Hin. destruct Hin as ([f g] & <- & Hg).
  apply resample_groups in Hg. cbn [fst snd] in Hg. destruct Hg as [Hf ->].
  cbn [agg date fst snd]. repeat split; assumption.
Qed.

Lemma week_group_In (df : list Bar) (f : Z) (b : Bar) :
  In b (week_group df f) <-> In b df /\ week_end (date b) = f.
Proof.
  unfold week_group. rewrite filter_In. unfold in_week.
  rewrite Z.eqb_eq. split; intros [H1 H2]; split; auto.
  - eapply Permutation_in; [apply sort_by_perm | exact H1].
  - eapply Permutation_in; [apply Permutation_sym, sort_by_perm | exact H1].
Qed.

Lemma week_group_sorted (df : list Bar) (f : Z) :
  StronglySorted (fun a b => (date a <= date b)%Z) (week_group df f).
Proof. apply StronglySorted_filter, sort_by_sorted. Qed.

Lemma complete_fields (b : Bar) :
  complete b = true ->
  Open b <> None /\ High b <> None /\ Low b <> None /\ Close b <> None
  /\ Volume b <> None.
Proof.
  unfold complete. rewrite !andb_true_iff, !negb_true_iff.
  intros ((((H1 & H2) & H3) & H4) & H5).
  repeat split; intros E; rewrite E in *; discriminate.
Qed.

Lemma first_valid_head (x : num) (r : list num) :
  x <> None -> first_valid (x :: r) = x.
Proof. destruct x; [reflexivity | congruence]. Qed.

Lemma valid_app (xs ys : list num) : valid (xs ++ ys) = valid xs ++ valid ys.
Proof.
  induction xs as [|[q|] r IH]; simpl; [reflexivity | now rewrite IH | exact IH].
Qed.

Lemma last_valid_last (xs : list num) (x : num) :
  x <> None -> last_valid (xs ++ [x]) = x.
Proof.
  intros Hx. unfold last_valid. rewrite valid_app, rev_app_distr.
  destruct x; [reflexivity | congruence].
Qed.

Lemma week_end_mono (d1 d2 : Z) :
  (d1 <= d2)%Z -> (week_end d1 <= week_end d2)%Z.
Proof.
  intros H.
  pose proof (week_end_friday d1) as F1. pose proof (week_end_friday d2) as F2.
  pose proof (week_end_bounds d1). pose proof (week_end_bounds d2).
  pose proof (Z.div_mod (week_end d1) 7). pose proof (Z.div_mod (week_end d2) 7).
  lia.
Qed.

Lemma week_labels_complete (lo hi f : Z) :
  (lo mod 7 = 1)%Z -> (f mod 7 = 1)%Z -> (lo <= f <= hi)%Z ->
  In f (week_labels lo hi).
Proof.
  intros Hlo Hf Hr. unfold week_labels. apply in_map_iff.
  pose proof (Z.div_mod lo 7) as Dlo. pose proof (Z.div_mod f 7) as Df.
  assert (E : (f - lo = (f / 7 - lo / 7) * 7)%Z) by lia.
  assert (Ek : ((f - lo) / 7 = f / 7 - lo / 7)%Z)
    by (rewrite E; apply Z.div_mul; lia).
  exists (Z.to_nat ((f - lo) / 7)). split.
  - rewrite Z2Nat.id by lia. lia.
  - apply in_seq. split; [lia|]. cbn [Nat.add].
    apply Z2Nat.inj_lt; try lia.
    + pose proof (Z.div_le_mono 0 (hi - lo) 7). cbn in *. lia.
    + pose proof (Z.div_le_mono (f - lo) (hi - lo) 7). lia.
Qed.

Lemma last_In (A : Type) (x : A) (r : list A) (d : A) :
  In (last (x :: r) d) (x :: r).
Proof.
  rewrite last_nth. apply nth_In. simpl. lia.
Qed.

Lemma sorted_below_last (A : Type) (key : A -> Z) (s : list A) :
  StronglySorted (fun a b => (key a <= key b)%Z) s ->
  forall b d, In b s -> (key b <= key (last s d))%Z.
Proof.
  induction 1 as [|x r Hr IH Hx]; intros b d Hb; [contradiction|].
  destruct r as [|y r'].
  - destruct Hb as [<-|[]]. simpl. lia.
  - change (last (x :: y :: r') d) with (last (y :: r') d).
    destruct Hb as [<-|Hb].
    + rewrite Forall_forall in Hx. apply Hx. apply last_In.
    + now apply IH.
Qed.

(** Every week that holds a daily bar has its group in the resampled
    frame. *)
Lemma resample_has_week (df : list Bar) (b : Bar) :
  In b df ->
  In (week_end (date b), week_group df (week_end (date b)))
     (resample_W_FRI df).
Proof.
  intros Hb. unfold resample_W_FRI, week_group.
  assert (Hs : In b (sort_by date df))
    by (eapply Permutation_in; [apply Permutation_sym, sort_by_perm|exact Hb]).
  pose proof (sort_by_sorted date df) as Hsorted.
  destruct (sort_by date df) as [|b0 s] eqn:E; [contradiction|].
  apply in_map_iff. exists (week_end (date b)). split; [reflexivity|].
  apply week_labels_complete; try apply week_end_friday. split.
  - apply week_end_mono. inversion Hsorted as [|? ? _ Hx]; subst.
    destruct Hs as [<-|Hs]; [lia|].
    rewrite Forall_forall in Hx. now apply Hx.
  - apply week_end_mono.
    now apply (@sorted_below_last Bar date (b0 :: s) Hsorted).
Qed.

(** C5, as stated, fails: the Monday bar of [monday_without_open] has no
    open; the week is kept, and its open is Tuesday's. *)
Lemma weekly_open_skips_missing_open :
  ~ open_close_of_first_and_last_bar monday_without_open.
Proof.
  intros H.
  specialize (H (mkBar 8 (Some 11) (Some 13) (Some 9) (Some 12)
                       (Some 300))%Q).
  assert (Hin : In (mkBar 8 (Some 11) (Some 13) (Some 9) (Some 12)
                          (Some 300))%Q (to_weekly monday_without_open))
    by (vm_compute; left; reflexivity).
  specialize (H Hin). vm_compute in H. destruct H as [H _]. discriminate H.
Qed.

(** C5, amended.  The weekly bars of [to_weekly] have strictly increasing
    week-end dates.  Each one is dated on a Friday and stands for the
    daily bars of the week ending that Friday, a group that is not empty
    (a calendar week without daily bars gives no weekly bar) and is in
    ascending date order.  Its open is the earliest daily open that is not
    missing, its close the latest daily close that is not missing, its
    high and low the maximum and minimum of the daily highs and lows that
    are not missing, its volume the sum of the daily volumes that are not
    missing; in particular the open is the earliest bar's open when that
    bar has one, and the close the latest bar's close when that bar has
    one.  No field of a weekly bar is missing: a week left with a missing
    field is dropped, and every other week that holds a daily bar is
    there. *)
Theorem weekly_bar_aggregates_its_week (df_daily : list Bar) :
  StronglySorted Z.lt (map date (to_weekly df_daily))
  /\ (forall wb, In wb (to_weekly df_daily) ->
     let g := week_group df_daily (date wb) in
     (date wb mod 7 = 1)%Z
     /\ g <> []
     /\ (forall b, In b g <-> In b df_daily /\ week_end (date b) = date wb)
     /\ StronglySorted (fun a b => (date a <= date b)%Z) g
     /\ Open wb = first_valid (map Open g)
     /\ Close wb = last_valid (map Close g)
     /\ (forall b0 r, g = b0 :: r -> Open b0 <> None -> Open wb = Open b0)
     /\ (forall r b1, g = r ++ [b1] -> Close b1 <> None ->
         Close wb = Close b1)
     /\ (exists m, High wb = Some m
                   /\ (exists b, In b g /\ High b = Some m)
                   /\ forall b q, In b g -> High b = Some q -> (q <= m)%Q)
     /\ (exists m, Low wb = Some m
                   /\ (exists b, In b g /\ Low b = Some m)
                   /\ forall b q, In b g -> Low b = Some q -> (m <= q)%Q)
     /\ Volume wb = Some (Qsum (valid (map Volume g)))
     /\ complete wb = true)
  /\ (forall b, In b df_daily ->
      let wb := agg (week_end (date b),
                     week_group df_daily (week_end (date b))) in
      complete wb = true -> In wb (to_weekly df_daily)).
Proof.
  split; [|split].
  - unfold to_weekly, dropna. apply StronglySorted_map_filter.
    rewrite map_map.
    replace (map (fun x => date (agg x)) (resample_W_FRI df_daily))
      with (map fst (resample_W_FRI df_daily))
      by (apply map_ext; reflexivity).
    apply resample_labels.
  - intros wb Hin g. apply to_weekly_In in Hin.
    destruct Hin as (Hwb & Hfri & Hc). fold g in Hwb.
    pose proof (complete_fields _ Hc) as (HO & HH & HL & HC & HV).
    assert (EO : Open wb = first_valid (map Open g)) by now rewrite Hwb at 1.
    assert (EH : High wb = max_valid (map High g)) by now rewrite Hwb at 1.
    assert (EL : Low wb = min_valid (map Low g)) by now rewrite Hwb at 1.
    assert (EC : Close wb = last_valid (map Close g)) by now rewrite Hwb at 1.
    assert (EV : Volume wb = sum_valid (map Volume g)) by now rewrite Hwb at 1.
    split; [exact Hfri|]. split.
    { intros Eg. rewrite Eg in EO. now apply HO. }
    split; [apply week_group_In|]. split; [apply week_group_sorted|].
    split; [exact EO|]. split; [exact EC|]. split.
    { intros b0 r Eg Hb0. rewrite EO, Eg. cbn [map].
      now apply first_valid_head. }
    split.
    { intros r b1 Eg Hb1. rewrite EC, Eg, map_app. cbn [map].
      now apply last_valid_last. }
    split.
    { destruct (High wb) as [m|] eqn:Em; [|congruence].
      exists m. split; [reflexivity|]. symmetry in EH.
      apply max_valid_spec in EH. destruct EH as [Hm Hub]. split.
      - apply in_map_iff in Hm. destruct Hm as (b & Hb & Hbg). now exists b.
      - intros b q Hb Hq. apply Hub. rewrite <- Hq. now apply in_map. }
    split.
    { destruct (Low wb) as [m|] eqn:Em; [|congruence].
      exists m. split; [reflexivity|]. symmetry in EL.
      apply min_valid_spec in EL. destruct EL as [Hm Hlb]. split.
      - apply in_map_iff in Hm. destruct Hm as (b & Hb & Hbg). now exists b.
      - intros b q Hb Hq. apply Hlb. rewrite <- Hq. now apply in_map. }
    split; [exact EV | exact Hc].
  - intros b Hb wb Hc. unfold to_weekly, dropna.
    apply filter_In. split; [|exact Hc].
    apply in_map. now apply resample_has_week.
Qed.

(** The week of [monday_without_open] is dated Friday, day 8. *)
Lemma weekly_bar_aggregates_its_week_witness :
  In (mkBar 8 (Some 11) (Some 13) (Some 9) (Some 12) (Some 300))%Q
     (to_weekly monday_without_open)
  /\ (8 mod 7 = 1)%Z.
Proof.
  assert (Hin : In (mkBar 8 (Some 11) (Some 13) (Some 9) (Some 12)
                          (Some 300))%Q (to_weekly monday_without_open))
    by (vm_compute; left; reflexivity).
  split; [exact Hin|].
  destruct (weekly_bar_aggregates_its_week monday_without_open)
    as (_ & H & _).
  destruct (H _ Hin) as [Hf _]. exact Hf.
Defined.

(* ===================================================================== *)
(** ** The candidate table *)
(* ===================================================================== *)

Lemma filter_partition_perm (A : Type) (p : A -> bool) (l : list A) :
  Permutation (filter p l ++ filter (fun x => negb (p x)) l) l.
Proof.
  induction l as [|x r IH]; simpl; [reflexivity|].
  destruct (p x); simpl.
  - now constructor.
  - rewrite <- Permutation_middle. now constructor.
Qed.

Lemma StronglySorted_total (A : Type) (R : A -> A -> Prop) (l : list A) :
  (forall a b, In a l -> In b l -> R a b) -> StronglySorted R l.
Proof.
  induction l as [|x r IH]; intros H; constructor.
  - apply IH. intros a b Ha Hb. apply H; now right.
  - apply Forall_forall. intros y Hy. apply H; [now left | now right].
Qed.

Lemma cap_known_key (r : Ranked) :
  cap_known r = true -> market_cap r = Some (cap_key r).
Proof. unfold cap_known, cap_key. now destruct (market_cap r). Qed.

Lemma cap_unknown_none (r : Ranked) :
  negb (cap_known r) = true -> market_cap r = None.
Proof. unfold cap_known. now destruct (market_cap r). Qed.

(** The sorted frame holds the same rows, in the order of the table. *)
Lemma sort_values_market_cap_desc_spec (rows : list Ranked) :
  Permutation rows (sort_values_market_cap_desc rows)
  /\ StronglySorted ranked_before (sort_values_market_cap_desc rows).
Proof.
  unfold sort_values_market_cap_desc.
  set (known := filter cap_known rows).
  set (unknown := filter (fun r => negb (cap_known r)) rows).
  assert (Hperm : Permutation (rev (sort_by cap_key (rev known))) known).
  { rewrite <- Permutation_rev, sort_by_perm. apply Permutation_sym.
    apply Permutation_rev. }
  assert (Hk : forall a, In a (rev (sort_by cap_key (rev known))) ->
                         cap_known a = true).
  { intros a Ha. apply (Permutation_in _ Hperm) in Ha.
    unfold known in Ha. now apply filter_In in Ha. }
  assert (Hu : forall b, In b unknown -> market_cap b = None).
  { intros b Hb. unfold unknown in Hb. apply filter_In in Hb.
    now apply cap_unknown_none. }
  split.
  - rewrite Hperm. apply Permutation_sym, filter_partition_perm.
  - apply StronglySorted_app.
    + apply StronglySorted_rev.
      eapply StronglySorted_weaken; [|apply sort_by_sorted].
      intros a b Ha Hb Hle. unfold ranked_before.
      rewrite (cap_known_key a), (cap_known_key b);
        [exact Hle | apply Hk; apply -> in_rev; exact Hb
         | apply Hk; apply -> in_rev; exact Ha].
    + apply StronglySorted_total. intros a b _ Hb. unfold ranked_before.
      rewrite (Hu b Hb). now destruct (market_cap a).
    + intros a b _ Hb. unfold ranked_before.
      rewrite (Hu b Hb). now destruct (market_cap a).
Qed.

(** C8.  The table that [run_screener] saves holds exactly the collected
    candidates, each with the capitalization the provider gave for its
    ticker, in an order where every row comes before every later row in
    the ranking: capitalizations descend, and every candidate without a
    known capitalization comes after all candidates that have one. *)
Theorem candidate_table_sorted (caps : string -> option Z)
  (candidates : list Candidate) (table : list Ranked) :
  rank_candidates caps candidates = Some table ->
  Permutation (map (fun c => (c, caps (ticker c))) candidates) table
  /\ StronglySorted ranked_before table
  /\ (forall i j, i < j < length table ->
      forall d,
        cap_ge (market_cap (nth i table d)) (market_cap (nth j table d))).
Proof.
  intros H. unfold rank_candidates in H.
  assert (E : table = sort_values_market_cap_desc
                        (map (fun c => (c, caps (ticker c))) candidates)).
  { destruct candidates; [discriminate | now inversion H]. }
  destruct (sort_values_market_cap_desc_spec
              (map (fun c => (c, caps (ticker c))) candidates)) as [Hp Hs].
  rewrite <- E in Hp, Hs. split; [exact Hp|]. split; [exact Hs|].
  clear - Hs. induction Hs as [|x r Hr IH Hx]; intros i j Hij d.
  - simpl in Hij. lia.
  - destruct j as [|j]; [lia|]. destruct i as [|i].
    + cbn [nth]. rewrite Forall_forall in Hx. apply Hx.
      apply nth_In. simpl in Hij. lia.
    + cbn [nth]. apply IH. simpl in Hij. lia.
Qed.

(** CCC (30) comes first, AAA (10) second, BBB (unknown) last. *)
Lemma candidate_table_sorted_witness :
  exists table,
    rank_candidates example_caps example_candidates = Some table
    /\ map (fun r => ticker (fst r)) table = ["CCC"; "AAA"; "BBB"]%string
    /\ StronglySorted ranked_before table.
Proof.
  eexists. split; [vm_compute; reflexivity|].
  split; [vm_compute; reflexivity|].
  eapply (@candidate_table_sorted example_caps example_candidates).
  vm_compute. reflexivity.
Defined.

(* ===================================================================== *)
(** ** Further properties: the batches of run_screener *)
(* ===================================================================== *)

Lemma concat_chunks (A : Type) (size : nat) :
  forall n (l : list A), length l <= n * size ->
    concat (map (fun k => firstn size (skipn (k * size) l)) (seq 0 n)) = l.
Proof.
  induction n as [|n IH]; intros l Hl.
  - destruct l; [reflexivity | simpl in Hl; lia].
  - cbn [seq map concat]. rewrite <- seq_shift, map_map.
    rewrite map_ext with
      (g := fun k => firstn size (skipn (k * size) (skipn size l))).
    + rewrite IH by (rewrite length_skipn; lia).
      cbn [Nat.mul skipn]. apply firstn_skipn.
    + intros k. rewrite skipn_skipn. do 2 f_equal. lia.
Qed.

Lemma batch_count_covers (size len : nat) :
  0 < size -> len <= (len + size - 1) / size * size.
Proof.
  intros Hs. pose proof (Nat.div_mod_eq (len + size - 1) size) as E.
  pose proof (Nat.mod_upper_bound (len + size - 1) size). nia.
Qed.

Lemma batch_start_inside (size len k : nat) :
  0 < size -> k < (len + size - 1) / size -> k * size < len.
Proof.
  intros Hs Hk. pose proof (Nat.div_mod_eq (len + size - 1) size) as E.
  pose proof (Nat.mod_upper_bound (len + size - 1) size). nia.
Qed.

Lemma batches_concat (A : Type) (size : nat) (l : list A) :
  0 < size -> concat (batches size l) = l.
Proof.
  intros Hs. unfold batches. apply concat_chunks.
  now apply batch_count_covers.
Qed.

(** X1.  The batches of [run_screener] cut the ticker list into
    consecutive pieces: put end to end they give the list back, so every
    ticker is in exactly one batch and the order is kept; no batch is
    empty and none holds more than [BATCH_SIZE] (50) tickers. *)
Theorem batches_partition (A : Type) (tickers : list A) :
  concat (batches BATCH_SIZE tickers) = tickers
  /\ Forall (fun b => 0 < length b <= BATCH_SIZE)
            (batches BATCH_SIZE tickers)
  /\ BATCH_SIZE = 50.
Proof.
  assert (Hs : 0 < BATCH_SIZE) by (unfold BATCH_SIZE; lia).
  split; [|split; [|reflexivity]].
  - now apply batches_concat.
  - unfold batches. apply Forall_forall. intros b Hb.
    apply in_map_iff in Hb. destruct Hb as (k & <- & Hk).
    apply in_seq in Hk.
    assert (k * BATCH_SIZE < length tickers)
      by (apply batch_start_inside; [exact Hs | lia]).
    rewrite length_firstn, length_skipn. lia.
Qed.

(* ===================================================================== *)
(** ** Further properties: fetch_sp500_tickers *)
(* ===================================================================== *)

Section FetchFacts.

Variable char : Type.
Variable isspace : char -> bool.
Variable is_dot : char -> bool.
Variable dash : char.

Lemma lstrip_starts_clean (s : list char) :
  starts_clean isspace (lstrip isspace s).
Proof.
  induction s as [|c r IH]; simpl; [exact I|].
  destruct (isspace c) eqn:E; [exact IH | exact E].
Qed.

Lemma lstrip_suffix (s : list char) :
  exists p, s = p ++ lstrip isspace s.
Proof.
  induction s as [|c r [p IH]]; [now exists []|]. simpl.
  destruct (isspace c).
  - exists (c :: p). simpl. now rewrite <- IH.
  - now exists [].
Qed.

Lemma lstrip_clean (s : list char) :
  starts_clean isspace s -> lstrip isspace s = s.
Proof. destruct s as [|c r]; simpl; [reflexivity|]. now intros ->. Qed.

Lemma strip_trimmed (s : list char) : trimmed isspace (strip isspace s).
Proof.
  unfold trimmed, strip. set (u := lstrip isspace s).
  set (v := lstrip isspace (rev u)). split.
  - destruct (lstrip_suffix (rev u)) as [p Hp]. fold v in Hp.
    assert (Hu : u = rev v ++ rev p).
    { rewrite <- rev_app_distr, <- Hp. now rewrite rev_involutive. }
    pose proof (lstrip_starts_clean s) as Hc. fold u in Hc.
    rewrite Hu in Hc. destruct (rev v); [exact I | exact Hc].
  - rewrite rev_involutive. apply lstrip_starts_clean.
Qed.

Lemma strip_clean (s : list char) :
  trimmed isspace s -> strip isspace s = s.
Proof.
  intros [H1 H2]. unfold strip.
  rewrite (lstrip_clean s H1), (lstrip_clean (rev s) H2).
  apply rev_involutive.
Qed.

Lemma replace_dot_no_dot (s : list char) :
  is_dot dash = false ->
  Forall (fun c => is_dot c = false) (replace_dot is_dot dash s).
Proof.
  intros Hd. unfold replace_dot. apply Forall_forall. intros c Hc.
  apply in_map_iff in Hc. destruct Hc as (c0 & <- & _).
  destruct (is_dot c0) eqn:E; [exact Hd | exact E].
Qed.

Lemma replace_dot_clean (s : list char) :
  Forall (fun c => is_dot c = false) s -> replace_dot is_dot dash s = s.
Proof.
  unfold replace_dot. induction 1 as [|c r Hc Hr IH]; simpl; [reflexivity|].
  now rewrite Hc, IH.
Qed.

Lemma replace_dot_starts_clean (s : list char) :
  isspace dash = false -> starts_clean isspace s ->
  starts_clean isspace (replace_dot is_dot dash s).
Proof.
  intros Hd. destruct s as [|c r]; simpl; [auto|].
  intros Hc. now destruct (is_dot c).
Qed.

Lemma replace_dot_trimmed (s : list char) :
  isspace dash = false -> trimmed isspace s ->
  trimmed isspace (replace_dot is_dot dash s).
Proof.
  intros Hd [H1 H2]. split.
  - now apply replace_dot_starts_clean.
  - unfold replace_dot. rewrite <- map_rev.
    now apply (replace_dot_starts_clean (rev s)).
Qed.

Lemma tickers_of_rows_In (rows : list (list (list char)))
  (t : list char) :
  In t (tickers_of_rows isspace is_dot dash rows) ->
  exists c0 cols, In (c0 :: cols) rows
                  /\ t = replace_dot is_dot dash (strip isspace c0).
Proof.
  unfold tickers_of_rows. intros H. apply in_flat_map in H.
  destruct H as ([|c0 cols] & Hin & Ht); [contradiction|].
  destruct Ht as [<-|[]]. now exists c0, cols.
Qed.

(** X2.  Whatever the page holds, a ticker returned by
    [fetch_sp500_tickers] contains no ['.'] and neither starts nor ends
    with a whitespace character (['-'] being neither a dot nor
    whitespace). *)
Theorem fetched_tickers_normal_form (by_id by_class : option (Table char))
  (tickers : list (list char)) :
  is_dot dash = false ->
  isspace dash = false ->
  fetch_sp500_tickers isspace is_dot dash by_id by_class = Some tickers ->
  forall t, In t tickers ->
    Forall (fun c => is_dot c = false) t /\ trimmed isspace t.
Proof.
  intros Hdot Hsp Hf t Ht. unfold fetch_sp500_tickers in Hf.
  destruct (match by_id with Some t0 => Some t0 | None => by_class end)
    as [tb|]; [|discriminate].
  inversion Hf; subst tickers. apply tickers_of_rows_In in Ht.
  destruct Ht as (c0 & cols & _ & ->). split.
  - now apply replace_dot_no_dot.
  - apply replace_dot_trimmed; [exact Hsp | apply strip_trimmed].
Qed.

(** X3.  A first cell that has no dot and no whitespace at either end is
    returned as it is: on a page whose table is found by its id, every
    such cell of a row after the header row is among the tickers. *)
Theorem clean_cell_is_returned_unchanged (table : Table char)
  (by_class : option (Table char)) (c0 : list char)
  (cols : list (list char)) :
  In (c0 :: cols) (tl table) ->
  Forall (fun c => is_dot c = false) c0 ->
  trimmed isspace c0 ->
  exists tickers,
    fetch_sp500_tickers isspace is_dot dash (Some table) by_class
    = Some tickers
    /\ In c0 tickers.
Proof.
  intros Hin Hd Ht. eexists. split; [reflexivity|].
  unfold tickers_of_rows. apply in_flat_map.
  exists (c0 :: cols). split; [exact Hin|]. left.
  now rewrite (strip_clean Ht), replace_dot_clean.
Qed.

(** X4.  [fetch_sp500_tickers] raises (no table to read) exactly when
    neither lookup finds a table.  Otherwise it reads the table found by
    id, or else the one found by class, skips the first row whatever it
    holds, and returns one ticker for each later row that has a cell, in
    row order. *)
Theorem fetched_one_ticker_per_row (by_id by_class : option (Table char)) :
  (fetch_sp500_tickers isspace is_dot dash by_id by_class = None <->
   by_id = None /\ by_class = None)
  /\ forall table tickers,
       (by_id = Some table \/ (by_id = None /\ by_class = Some table)) ->
       fetch_sp500_tickers isspace is_dot dash by_id by_class
       = Some tickers ->
       tickers =
       map (fun cols => replace_dot is_dot dash
                          (strip isspace (hd [] cols)))
           (filter (fun cols => negb (length cols =? 0)) (tl table))
       /\ length tickers <= length table - 1.
Proof.
  split.
  - unfold fetch_sp500_tickers.
    destruct by_id, by_class; split; try discriminate; try tauto;
      intros [H1 H2]; discriminate.
  - intros table tickers Htab Hf.
    assert (E : tickers = tickers_of_rows isspace is_dot dash (tl table)).
    { unfold fetch_sp500_tickers in Hf.
      destruct Htab as [-> | [-> ->]]; now inversion Hf. }
    assert (G : forall rows,
               tickers_of_rows isspace is_dot dash rows =
               map (fun cols => replace_dot is_dot dash
                                  (strip isspace (hd [] cols)))
                   (filter (fun cols => negb (length cols =? 0)) rows)).
    { induction rows as [|[|c0 cols] r IH]; simpl; [reflexivity| |].
      - exact IH.
      - f_equal. exact IH. }
    rewrite E, G. split; [reflexivity|].
    rewrite length_map. etransitivity; [apply filter_length_le|].
    destruct table; simpl; lia.
Qed.

End FetchFacts.

(** The ASCII page [example_table]: the header row is skipped, the row
    without cell adds nothing, [" BRK.B "] becomes ["BRK-B"]. *)
Lemma fetched_tickers_normal_form_witness :
  ascii_is_dot "-"%char = false
  /\ ascii_isspace "-"%char = false
  /\ fetch_sp500_tickers ascii_isspace ascii_is_dot "-"%char
       (Some example_table) None
     = Some (map list_ascii_of_string ["BRK-B"; "AAPL"]%string)
  /\ Forall (fun c => ascii_is_dot c = false)
            (list_ascii_of_string "BRK-B").
Proof.
  assert (H1 : ascii_is_dot "-"%char = false) by reflexivity.
  assert (H2 : ascii_isspace "-"%char = false) by reflexivity.
  assert (H3 : fetch_sp500_tickers ascii_isspace ascii_is_dot "-"%char
                 (Some example_table) None
               = Some (map list_ascii_of_string ["BRK-B"; "AAPL"]%string))
    by (vm_compute; reflexivity).
  repeat split; try assumption.
  apply (@fetched_tickers_normal_form _ ascii_isspace ascii_is_dot "-"%char
           (Some example_table) None _ H1 H2 H3). simpl. now left.
Defined.

Lemma clean_cell_is_returned_unchanged_witness :
  exists tickers,
    fetch_sp500_tickers ascii_isspace ascii_is_dot "-"%char
      (Some example_table) None = Some tickers
    /\ In (list_ascii_of_string "AAPL") tickers.
Proof.
  apply (@clean_cell_is_returned_unchanged _ ascii_isspace ascii_is_dot
           "-"%char example_table None (list_ascii_of_string "AAPL")
           [list_ascii_of_string "Apple Inc."]).
  - vm_compute. right. right. left. reflexivity.
  - vm_compute. repeat constructor.
  - vm_compute. split; reflexivity.
Defined.

Lemma fetched_one_ticker_per_row_witness :
  length (map list_ascii_of_string ["BRK-B"; "AAPL"]%string)
  <= length example_table - 1.
Proof.
  destruct (fetched_one_ticker_per_row ascii_isspace ascii_is_dot "-"%char
              (Some example_table) None) as [_ H].
  destruct (H example_table
              (map list_ascii_of_string ["BRK-B"; "AAPL"]%string))
    as [_ Hl].
  - left. reflexivity.
  - vm_compute. reflexivity.
  - exact Hl.
Defined.

(* ===================================================================== *)
(** ** Further properties: compute_indicators *)
(* ===================================================================== *)

(** X5.  The frame of [compute_indicators] keeps the rows it was given and
    every column it adds has exactly one cell per row; the three
    relative-strength columns are there iff a benchmark was given. *)
Theorem compute_indicators_shape (weekly : list Bar)
  (benchmark_weekly : option (list Bar)) :
  let f := compute_indicators weekly benchmark_weekly in
  bars f = weekly
  /\ length (SMA30 f) = length weekly
  /\ length (SMA30_slope f) = length weekly
  /\ length (avg_vol30 f) = length weekly
  /\ length (vol_spike f) = length weekly
  /\ (has_RS_slope f = true <-> benchmark_weekly <> None)
  /\ (forall c, rs f = Some c ->
      length (B_Close c) = length weekly
      /\ length (RS c) = length weekly
      /\ length (RS_slope c) = length weekly).
Proof.
  cbv zeta. split; [reflexivity|].
  split; [apply ci_SMA30_length|]. split; [apply ci_SMA30_slope_length|].
  split; [apply ci_avg_vol30_length|]. split; [apply ci_vol_spike_length|].
  destruct benchmark_weekly as [bw|].
  - split; [split; [discriminate | reflexivity]|].
    intros c Hc. rewrite ci_rs in Hc. inversion Hc; subst c.
    cbn [B_Close RS RS_slope].
    split; [apply ci_B_Close_length|].
    split; [apply ci_RS_length | apply ci_RS_slope_length].
  - split; [split; [discriminate | congruence]|].
    intros c Hc. discriminate Hc.
Qed.

Section Prefix.

Variable A : Type.

Lemma windows_from_firstn (n k : nat) (xs : list A) :
  forall buf,
    windows_from n buf (firstn k xs) = firstn k (windows_from n buf xs).
Proof.
  revert k. induction xs as [|x r IH]; intros k buf.
  - now rewrite !firstn_nil.
  - destruct k as [|k]; [reflexivity|].
    cbn [firstn windows_from]. now rewrite IH.
Qed.

Lemma map2_firstn (B C : Type) (f : A -> B -> C) (k : nat) (xs : list A) :
  forall ys,
    map2 f (firstn k xs) (firstn k ys) = firstn k (map2 f xs ys).
Proof.
  revert k. induction xs as [|x r IH]; intros k ys.
  - now rewrite !firstn_nil.
  - destruct k as [|k]; [reflexivity|].
    destruct ys as [|y yr]; [reflexivity|].
    cbn [firstn map2]. now rewrite IH.
Qed.

Lemma shift_firstn (fill : A) (j k : nat) (xs : list A) :
  shift fill j (firstn k xs) = firstn k (shift fill j xs).
Proof.
  unfold shift. rewrite firstn_firstn, length_firstn.
  rewrite !firstn_app, repeat_length, firstn_firstn.
  f_equal. f_equal. lia.
Qed.

End Prefix.

Lemma rolling_mean_firstn (n k : nat) (xs : list num) :
  rolling_mean n (firstn k xs) = firstn k (rolling_mean n xs).
Proof.
  unfold rolling_mean, rolling.
  now rewrite windows_from_firstn, firstn_map.
Qed.

Lemma diff_firstn (j k : nat) (xs : list num) :
  diff j (firstn k xs) = firstn k (diff j xs).
Proof. unfold diff. now rewrite shift_firstn, map2_firstn. Qed.

Lemma fdiff_firstn (j k : nat) (xs : list float) :
  fdiff j (firstn k xs) = firstn k (fdiff j xs).
Proof. unfold fdiff. now rewrite shift_firstn, map2_firstn. Qed.

Lemma ffill_from_firstn (k : nat) (xs : list num) :
  forall prev,
    ffill_from prev (firstn k xs) = firstn k (ffill_from prev xs).
Proof.
  revert k. induction xs as [|x r IH]; intros k prev.
  - now rewrite !firstn_nil.
  - destruct k as [|k]; [reflexivity|].
    cbn [firstn ffill_from]. now rewrite IH.
Qed.

(** X6.  No column of [compute_indicators] looks ahead: computed on the
    first [k] weeks alone, every column is the first [k] cells of the
    column computed on the whole history.  A later week never changes an
    earlier cell. *)
Theorem compute_indicators_no_look_ahead (weekly : list Bar)
  (benchmark_weekly : option (list Bar)) (k : nat) :
  let f := compute_indicators weekly benchmark_weekly in
  let fk := compute_indicators (firstn k weekly) benchmark_weekly in
  SMA30 fk = firstn k (SMA30 f)
  /\ SMA30_slope fk = firstn k (SMA30_slope f)
  /\ avg_vol30 fk = firstn k (avg_vol30 f)
  /\ vol_spike fk = firstn k (vol_spike f)
  /\ option_map (@B_Close) (rs fk)
     = option_map (fun c => firstn k (B_Close c)) (rs f)
  /\ option_map (@RS) (rs fk)
     = option_map (fun c => firstn k (RS c)) (rs f)
  /\ option_map (@RS_slope) (rs fk)
     = option_map (fun c => firstn k (RS_slope c)) (rs f).
Proof.
  cbv zeta.
  assert (Esma : SMA30 (compute_indicators (firstn k weekly) benchmark_weekly)
                 = firstn k (SMA30 (compute_indicators weekly
                                      benchmark_weekly))).
  { change (rolling_mean SMA_WEEKS (map Close (firstn k weekly))
            = firstn k (rolling_mean SMA_WEEKS (map Close weekly))).
    now rewrite <- firstn_map, rolling_mean_firstn. }
  assert (Eavg : avg_vol30 (compute_indicators (firstn k weekly)
                              benchmark_weekly)
                 = firstn k (avg_vol30 (compute_indicators weekly
                                          benchmark_weekly))).
  { change (rolling_mean VOL_AVG_WEEKS (map Volume (firstn k weekly))
            = firstn k (rolling_mean VOL_AVG_WEEKS (map Volume weekly))).
    now rewrite <- firstn_map, rolling_mean_firstn. }
  split; [exact Esma|]. split.
  { change (diff 1 (SMA30 (compute_indicators (firstn k weekly)
                             benchmark_weekly))
            = firstn k (diff 1 (SMA30 (compute_indicators weekly
                                         benchmark_weekly)))).
    now rewrite Esma, diff_firstn. }
  split; [exact Eavg|]. split.
  { change (map2 Num.gt (map Volume (firstn k weekly))
              (map (scale VOL_MULTIPLIER)
                 (avg_vol30 (compute_indicators (firstn k weekly)
                               benchmark_weekly)))
            = firstn k
                (map2 Num.gt (map Volume weekly)
                   (map (scale VOL_MULTIPLIER)
                      (avg_vol30 (compute_indicators weekly
                                    benchmark_weekly))))).
    now rewrite Eavg, <- !firstn_map, map2_firstn. }
  destruct benchmark_weekly as [bw|]; [|repeat split].
  rewrite !ci_rs. cbn [option_map B_Close RS RS_slope].
  assert (Eb : ffill (reindex_Close bw (map date (firstn k weekly)))
               = firstn k (ffill (reindex_Close bw (map date weekly)))).
  { unfold ffill, reindex_Close.
    now rewrite <- !firstn_map, ffill_from_firstn. }
  assert (Er : map2 Float.div (map Close (firstn k weekly))
                 (ffill (reindex_Close bw (map date (firstn k weekly))))
               = firstn k
                   (map2 Float.div (map Close weekly)
                      (ffill (reindex_Close bw (map date weekly))))).
  { now rewrite Eb, <- firstn_map, map2_firstn. }
  split; [now rewrite Eb|]. split; [now rewrite Er|].
  now rewrite Er, fdiff_firstn.
Qed.



Lemma fold_Qplus_acc (r : list Q) :
  forall acc, (fold_left Qplus r acc == acc + fold_left Qplus r 0)%Q.
Proof.
  induction r as [|y r IH]; intros acc; cbn [fold_left].
  - ring.
  - rewrite (IH (acc + y)%Q), (IH (0 + y)%Q). ring.
Qed.

Lemma Qsum_cons (x : Q) (r : list Q) : (Qsum (x :: r) == x + Qsum r)%Q.
Proof.
  unfold Qsum. cbn [fold_left]. rewrite fold_Qplus_acc. ring.
Qed.

Lemma Qsum_nonneg (l : list Q) :
  Forall (fun x => 0 <= x)%Q l -> (0 <= Qsum l)%Q.
Proof.
  induction 1 as [|x r Hx Hr IH].
  - unfold Qsum. simpl. apply Qle_refl.
  - rewrite Qsum_cons.
    setoid_replace 0%Q with (0 + 0)%Q by ring.
    now apply Qplus_le_compat.
Qed.

Lemma Qsum_zero (l : list Q) :
  Forall (fun x => 0 <= x)%Q l -> (Qsum l == 0)%Q ->
  forall x, In x l -> (x == 0)%Q.
Proof.
  induction 1 as [|y r Hy Hr IH]; intros Hs x Hx; [contradiction|].
  rewrite Qsum_cons in Hs. pose proof (Qsum_nonneg Hr) as Hn.
  assert (Ey : (y == 0)%Q).
  { apply Qle_antisym; [|exact Hy].
    setoid_replace y with (0 - Qsum r)%Q by (rewrite <- Hs; ring).
    setoid_replace 0%Q with (0 - 0)%Q at 2 by ring.
    apply Qplus_le_compat; [apply Qle_refl|]. now apply Qopp_le_compat. }
  destruct Hx as [<-|Hx]; [exact Ey|].
  apply IH; [|exact Hx]. rewrite Ey in Hs. now rewrite Qplus_0_l in Hs.
Qed.

Lemma window_mean_some (n : nat) (win : list num) (a : Q) :
  window_mean n win = Some a ->
  n <= length (valid win) /\ 0 < length (valid win)
  /\ a = (Qsum (valid win) / inject_Z (Z.of_nat (length (valid win))))%Q.
Proof.
  unfold window_mean.
  destruct (Nat.ltb_spec (length (valid win)) n); [discriminate|].
  destruct (Nat.eqb_spec (length (valid win)) 0); [discriminate|].
  cbn [orb]. intros E. inversion E. repeat split; lia.
Qed.

Lemma recent_incl (A : Type) (n t : nat) (xs : list A) (x : A) :
  In x (recent n t xs) -> In x xs.
Proof.
  unfold recent. intros H.
  assert (H1 : In x (firstn (S t) xs)).
  { rewrite <- (firstn_skipn (S t - n) (firstn (S t) xs)).
    apply in_or_app. now right. }
  rewrite <- (firstn_skipn (S t) xs). apply in_or_app. now left.
Qed.

Lemma recent_has_row (A : Type) (n t : nat) (xs : list A) (d : A) :
  0 < n -> t < length xs -> In (nth t xs d) (recent n t xs).
Proof.
  intros Hn Ht. unfold recent.
  assert (E : nth t xs d
              = nth (t - (S t - n)) (skipn (S t - n) (firstn (S t) xs)) d).
  { rewrite nth_skipn, nth_firstn.
    replace (S t - n + (t - (S t - n))) with t by lia.
    destruct (Nat.ltb_spec t (S t)); [reflexivity | lia]. }
  rewrite E. apply nth_In.
  rewrite length_skipn, firstn_length_le by lia. lia.
Qed.

(** X8.  With volumes that are not negative, a rolling average volume of
    zero means the row's own volume is zero: the volume-spike flag of
    such a row is false. *)
Theorem no_spike_over_zero_average (weekly : list Bar)
  (benchmark_weekly : option (list Bar)) (t : nat) (a : Q) :
  t < length weekly ->
  (forall b q, In b weekly -> Volume b = Some q -> (0 <= q)%Q) ->
  let f := compute_indicators weekly benchmark_weekly in
  cell (avg_vol30 f) t = Some a ->
  (a == 0)%Q ->
  flag (vol_spike f) t = false.
Proof.
  intros Ht Hnn f Ha Hz.
  assert (Hpos : 0 < VOL_AVG_WEEKS) by (unfold VOL_AVG_WEEKS; lia).
  set (volumes := map Volume weekly).
  set (win := recent VOL_AVG_WEEKS t volumes).
  assert (Hlen : t < length volumes)
    by (unfold volumes; now rewrite length_map).
  assert (E := ci_avg_vol30_nth weekly benchmark_weekly Ht).
  fold f volumes win in E. rewrite Ha in E. symmetry in E.
  apply window_mean_some in E. destruct E as (Hfull & Hne & Ea).
  assert (Hwin : forall q, In (Some q) win -> (0 <= q)%Q).
  { intros q Hq. unfold win in Hq.
    apply recent_incl in Hq. unfold volumes in Hq.
    apply in_map_iff in Hq. destruct Hq as (b & Hb & Hin).
    now apply (Hnn b). }
  assert (Hvalid : Forall (fun x => 0 <= x)%Q (valid win)).
  { apply Forall_forall. intros q Hq. apply Hwin. now apply valid_In. }
  assert (Hsum : (Qsum (valid win) == 0)%Q).
  { assert (Hd : ~ (inject_Z (Z.of_nat (length (valid win))) == 0)%Q).
    { intros H0. unfold Qeq in H0. simpl in H0. lia. }
    rewrite <- (@Qmult_div_r (Qsum (valid win)) _ Hd), <- Ea, Hz. ring. }
  assert (Hall : length (valid win) = length win).
  { pose proof (valid_length_le win).
    assert (length win <= VOL_AVG_WEEKS)
      by (unfold win; rewrite recent_length by exact Hlen; lia).
    lia. }
  assert (Hrow : In (cell volumes t) win)
    by (apply recent_has_row; assumption).
  unfold f. rewrite (ci_vol_spike_nth weekly benchmark_weekly Ht).
  fold f volumes. rewrite Ha.
  destruct (cell volumes t) as [q|] eqn:Eq; [|reflexivity].
  assert (Hq0 : (q == 0)%Q)
    by (apply (Qsum_zero Hvalid Hsum); now apply valid_In).
  simpl. destruct (Qltb (VOL_MULTIPLIER * a) q) eqn:El; [|reflexivity].
  apply Qltb_iff in El. rewrite Hq0, Hz in El.
  exfalso. apply (Qlt_irrefl 0).
  setoid_replace 0%Q with (VOL_MULTIPLIER * 0)%Q at 1 by ring. exact El.
Qed.

Lemma no_spike_over_zero_average_witness :
  29 < length (flat_weeks 30 10 0)
  /\ flag (vol_spike (compute_indicators (flat_weeks 30 10 0) None)) 29
     = false.
Proof.
  assert (H1 : 29 < length (flat_weeks 30 10 0)) by (vm_compute; lia).
  split; [exact H1|].
  apply (@no_spike_over_zero_average (flat_weeks 30 10 0) None 29 (0 # 30)
           H1).
  - intros b q Hb Hq. unfold flat_weeks in Hb. apply in_map_iff in Hb.
    destruct Hb as (i & <- & _). simpl in Hq. inversion Hq.
    apply Qle_refl.
  - vm_compute. reflexivity.
  - reflexivity.
Defined.

(* ===================================================================== *)
(** ** Further properties: is_weinstein_buy *)
(* ===================================================================== *)

(** X9.  [is_weinstein_buy] raises on no frame: the length test comes
    before the only step that can fail, [iloc[-1]], and lets no empty
    frame through.  This holds for every frame, whatever its columns
    hold and however long each of them is. *)
Theorem is_weinstein_buy_never_raises (f : IndFrame) :
  exists meets snap, is_weinstein_buy f = Ok (meets, snap).
Proof.
  destruct (Nat.lt_ge_cases (len f) (SMA_WEEKS + BASE_LOOKBACK_WEEKS))
    as [Hs|Hl].
  - exists false, None. unfold is_weinstein_buy.
    destruct (Nat.ltb_spec (len f) (SMA_WEEKS + BASE_LOOKBACK_WEEKS));
      [reflexivity | lia].
  - exists (rule_on_last_row f), (Some (snapshot f)).
    now apply is_weinstein_buy_enough_rows.
Qed.

Lemma preceding_has_row (A : Type) (k t j : nat) (xs : list A) (d : A) :
  t - k <= j -> j < t -> t < length xs ->
  In (nth j xs d) (preceding k t xs).
Proof.
  intros H1 H2 H3. unfold preceding.
  assert (E : nth j xs d = nth (j - (t - k)) (firstn k (skipn (t - k) xs)) d).
  { rewrite nth_firstn, nth_skipn.
    replace (t - k + (j - (t - k))) with j by lia.
    destruct (Nat.ltb_spec (j - (t - k)) k); [reflexivity | lia]. }
  rewrite E. apply nth_In.
  rewrite length_firstn, length_skipn. lia.
Qed.

(** The decision on a frame of [compute_indicators], read back from the
    result of [is_weinstein_buy]. *)
Lemma passing_rule (weekly : list Bar)
  (benchmark_weekly : option (list Bar)) (snap : option Details) :
  is_weinstein_buy (compute_indicators weekly benchmark_weekly)
  = Ok (true, snap) ->
  SMA_WEEKS + BASE_LOOKBACK_WEEKS <= length weekly
  /\ rule_on_last_row (compute_indicators weekly benchmark_weekly) = true
  /\ snap = Some (snapshot (compute_indicators weekly benchmark_weekly)).
Proof.
  intros H.
  destruct (Nat.lt_ge_cases (length weekly)
              (SMA_WEEKS + BASE_LOOKBACK_WEEKS)) as [Hs|Hl].
  - unfold is_weinstein_buy in H. rewrite ci_len in H.
    destruct (Nat.ltb_spec (length weekly)
                (SMA_WEEKS + BASE_LOOKBACK_WEEKS)); [discriminate | lia].
  - rewrite is_weinstein_buy_enough_rows in H
      by (rewrite ci_len; exact Hl).
    inversion H. auto.
Qed.

(** X10.  When a frame of [compute_indicators] passes, its most recent
    close is a new high: it has a value, and it is strictly above every
    close that has a value among the [BASE_LOOKBACK_WEEKS] (20) rows
    before it. *)
Theorem passing_close_is_new_high (weekly : list Bar)
  (benchmark_weekly : option (list Bar)) (snap : option Details) :
  is_weinstein_buy (compute_indicators weekly benchmark_weekly)
  = Ok (true, snap) ->
  let closes := map Close weekly in
  let t := length weekly - 1 in
  exists c,
    cell closes t = Some c
    /\ forall j q, t - BASE_LOOKBACK_WEEKS <= j -> j < t ->
         cell closes j = Some q -> (q < c)%Q.
Proof.
  intros H closes t. apply passing_rule in H. destruct H as (Hn & Hr & _).
  pose proof enough_rows_positive as Hp.
  apply rule_on_computed_frame in Hr; [|lia].
  destruct Hr as (Hb & _). unfold breakout_at, prior_high_at in Hb.
  change (bars (compute_indicators weekly benchmark_weekly))
    with weekly in Hb.
  change (last_row (compute_indicators weekly benchmark_weekly))
    with t in Hb.
  fold closes in Hb. apply gt_iff in Hb.
  destruct Hb as (c & m & Hc & Hm & Hlt).
  exists c. split; [exact Hc|]. intros j q Hj1 Hj2 Hq.
  apply max_valid_spec in Hm. destruct Hm as [_ Hub].
  eapply Qle_lt_trans; [|exact Hlt]. apply Hub. rewrite <- Hq.
  apply preceding_has_row; try assumption.
  unfold closes, t. rewrite length_map. lia.
Qed.

Lemma passing_close_is_new_high_witness :
  exists c,
    cell (map Close breakout_weeks) (length breakout_weeks - 1) = Some c
    /\ forall j q,
         length breakout_weeks - 1 - BASE_LOOKBACK_WEEKS <= j ->
         j < length breakout_weeks - 1 ->
         cell (map Close breakout_weeks) j = Some q -> (q < c)%Q.
Proof.
  apply (@passing_close_is_new_high breakout_weeks None
           (Some (snapshot (compute_indicators breakout_weeks None)))).
  vm_compute. reflexivity.
Defined.

(** On a frame of [compute_indicators] the snapshot's flag is the
    comparison of the snapshot's volume with 1.5 times its average. *)
Lemma snapshot_spike_computed (weekly : list Bar)
  (benchmark_weekly : option (list Bar)) :
  0 < length weekly ->
  let d := snapshot (compute_indicators weekly benchmark_weekly) in
  d_vol_spike d = Num.gt (d_vol d) (scale VOL_MULTIPLIER (d_avg_vol30 d)).
Proof.
  intros Hn. cbv zeta. cbn [snapshot d_vol_spike d_vol d_avg_vol30].
  rewrite !last_nth, length_map.
  rewrite ci_vol_spike_length, ci_avg_vol30_length.
  change (bars (compute_indicators weekly benchmark_weekly)) with weekly.
  apply ci_vol_spike_nth. lia.
Qed.

(** What a kept candidate went through. *)
Lemma screen_ticker_Some (spy_weekly : list Bar) (t : string)
  (df_daily : list Bar) (c : Candidate) :
  screen_ticker spy_weekly t df_daily = Some c ->
  ticker c = t
  /\ is_weinstein_buy
       (compute_indicators (to_weekly df_daily) (Some spy_weekly))
     = Ok (true, Some (details c)).
Proof.
  unfold screen_ticker. destruct df_daily as [|b r]; [discriminate|].
  destruct (is_weinstein_buy _) as [[[|] [d|]]|e]; try discriminate.
  intros H. inversion H. auto.
Qed.

(** The inequalities that hold between the fields of a candidate. *)
Lemma candidate_fields (spy_weekly : list Bar) (t : string)
  (df_daily : list Bar) (c : Candidate) :
  screen_ticker spy_weekly t df_daily = Some c ->
  let d := details c in
  Num.gt (d_close d) (d_prior_high d) = true
  /\ Num.gt (d_close d) (d_SMA30 d) = true
  /\ Num.gt (d_SMA30_slope d) (Some 0%Q) = true
  /\ d_vol_spike d = true
  /\ Num.gt (d_vol d) (scale VOL_MULTIPLIER (d_avg_vol30 d)) = true
  /\ Float.gt (d_RS_slope d) (Fin 0) = true.
Proof.
  intros H. apply screen_ticker_Some in H. destruct H as [_ H].
  apply passing_rule in H. destruct H as (Hn & Hr & Hd).
  inversion Hd as [Ed]. cbv zeta. rewrite Ed.
  pose proof enough_rows_positive as Hp.
  assert (Hsp := @snapshot_spike_computed (to_weekly df_daily)
                   (Some spy_weekly) ltac:(lia)).
  cbv zeta in Hsp. rewrite <- Hsp.
  unfold rule_on_last_row in Hr.
  change (has_RS_slope (compute_indicators (to_weekly df_daily)
                          (Some spy_weekly))) with true in Hr.
  change RS_REQUIRED with true in Hr. cbn [andb] in Hr.
  rewrite !andb_true_iff in Hr. tauto.
Qed.

(* ===================================================================== *)
(** ** Further properties: the scan of run_screener *)
(* ===================================================================== *)

Section SubseqFacts.

Variable A : Type.

Lemma Subseq_app (a b c d : list A) :
  Subseq a b -> Subseq c d -> Subseq (a ++ c) (b ++ d).
Proof.
  induction 1; intros Hcd; simpl; [exact Hcd | |];
    constructor; now apply IHSubseq.
Qed.

Lemma Subseq_In (xs ys : list A) (x : A) :
  Subseq xs ys -> In x xs -> In x ys.
Proof.
  induction 1; intros Hx; [contradiction | right; auto |].
  destruct Hx as [->|Hx]; [now left | right; auto].
Qed.

Lemma Subseq_length (xs ys : list A) :
  Subseq xs ys -> length xs <= length ys.
Proof. induction 1; simpl; lia. Qed.

Lemma Subseq_NoDup (xs ys : list A) :
  Subseq xs ys -> NoDup ys -> NoDup xs.
Proof.
  induction 1; intros Hnd; [constructor | |];
    inversion Hnd as [|? ? Hy Hr]; subst; [auto|].
  constructor; [|auto]. intros Hx. apply Hy. eapply Subseq_In; eauto.
Qed.

End SubseqFacts.

Lemma process_ticker_cases (spy_weekly : list Bar)
  (download_one : string -> option (list Bar)) (data : BatchData)
  (t : string) :
  process_ticker spy_weekly download_one data t = []
  \/ exists c df_daily,
       process_ticker spy_weekly download_one data t = [c]
       /\ screen_ticker spy_weekly t df_daily = Some c.
Proof.
  unfold process_ticker.
  destruct (daily_frame download_one data t) as [df|]; [|now left].
  destruct (screen_ticker spy_weekly t df) as [c|] eqn:E; [|now left].
  right. now exists c, df.
Qed.

Lemma process_batch_subseq (spy_weekly : list Bar)
  (download_one : string -> option (list Bar)) (data : BatchData)
  (batch : list string) :
  Subseq (map ticker
              (flat_map (process_ticker spy_weekly download_one data) batch))
         batch.
Proof.
  induction batch as [|t r IH]; [constructor|].
  cbn [flat_map].
  destruct (process_ticker_cases spy_weekly download_one data t)
    as [-> | (c & df & -> & Hs)].
  - simpl. now constructor.
  - apply screen_ticker_Some in Hs. destruct Hs as [Ht _].
    simpl. rewrite Ht. now constructor.
Qed.

(** X11.  The tickers of the candidates that [run_screener] returns are
    the scanned tickers with some left out, in the order of the scan: no
    ticker is invented or moved, and a ticker listed once is reported at
    most once. *)
Theorem candidates_follow_the_tickers (spy : list Bar)
  (download_batch : list string -> BatchData)
  (download_one : string -> option (list Bar)) (tickers : list string) :
  let candidates :=
    run_screener_candidates spy download_batch download_one tickers in
  Subseq (map ticker candidates) tickers
  /\ length candidates <= length tickers
  /\ (NoDup tickers -> NoDup (map ticker candidates)).
Proof.
  cbv zeta.
  assert (H : Subseq (map ticker (run_screener_candidates spy download_batch
                                    download_one tickers)) tickers).
  { unfold run_screener_candidates.
    assert (G : forall bs : list (list string),
              Subseq (map ticker
                        (flat_map
                           (fun batch =>
                              flat_map
                                (process_ticker (to_weekly spy) download_one
                                                (download_batch batch))
                                batch) bs))
                     (concat bs)).
    { induction bs as [|b bs IH]; [constructor|].
      cbn [flat_map concat]. rewrite map_app.
      apply Subseq_app; [apply process_batch_subseq | exact IH]. }
    specialize (G (batches BATCH_SIZE tickers)).
    rewrite batches_concat in G by (unfold BATCH_SIZE; lia).
    exact G. }
  split; [exact H|]. split.
  - apply Subseq_length in H. now rewrite length_map in H.
  - intros Hnd. eapply Subseq_NoDup; eauto.
Qed.

(** X12.  Every candidate that [run_screener] returns carries the ticker
    of one of the scanned tickers, and its own fields show the rule: the
    close, the prior high, the trend average, the trend slope, the volume
    and the average volume all have values, with close above the prior
    high, close above the trend average, the slope positive and the
    volume above 1.5 times the average volume; and, the benchmark being
    always given, its relative-strength slope is positive. *)
Theorem every_candidate_shows_the_rule (spy : list Bar)
  (download_batch : list string -> BatchData)
  (download_one : string -> option (list Bar)) (tickers : list string)
  (c : Candidate) :
  In c (run_screener_candidates spy download_batch download_one tickers) ->
  In (ticker c) tickers
  /\ exists close high sma slope vol avg,
       d_close (details c) = Some close
       /\ d_prior_high (details c) = Some high
       /\ d_SMA30 (details c) = Some sma
       /\ d_SMA30_slope (details c) = Some slope
       /\ d_vol (details c) = Some vol
       /\ d_avg_vol30 (details c) = Some avg
       /\ (high < close)%Q /\ (sma < close)%Q /\ (0 < slope)%Q
       /\ (VOL_MULTIPLIER * avg < vol)%Q
       /\ d_vol_spike (details c) = true
       /\ Float.gt (d_RS_slope (details c)) (Fin 0) = true.
Proof.
  unfold run_screener_candidates. intros Hc.
  apply in_flat_map in Hc. destruct Hc as (batch & Hb & Hc).
  apply in_flat_map in Hc. destruct Hc as (t & Ht & Hc).
  destruct (process_ticker_cases (to_weekly spy) download_one
              (download_batch batch) t) as [E | (c' & df & E & Hs)];
    rewrite E in Hc; [contradiction|].
  destruct Hc as [<-|[]].
  pose proof (screen_ticker_Some _ _ _ Hs) as [Etick _].
  split.
  - rewrite Etick.
    rewrite <- (@batches_concat _ BATCH_SIZE tickers)
      by (unfold BATCH_SIZE; lia).
    apply in_concat. now exists batch.
  - apply candidate_fields in Hs. cbv zeta in Hs.
    destruct Hs as (H1 & H2 & H3 & H4 & H5 & H6).
    apply gt_iff in H1. destruct H1 as (close & high & Ec & Eh & L1).
    apply gt_iff in H2. destruct H2 as (close' & sma & Ec' & Es & L2).
    apply gt_iff in H3. destruct H3 as (slope & z & Esl & Ez & L3).
    apply gt_iff in H5. destruct H5 as (vol & th & Ev & Eth & L5).
    destruct (d_avg_vol30 (details c')) as [avg|] eqn:Ea; [|discriminate].
    simpl in Eth. inversion Eth; subst th. inversion Ez; subst z.
    rewrite Ec in Ec'. inversion Ec'; subst close'.
    exists close, high, sma, slope, vol, avg. repeat split; assumption.
Qed.

Lemma every_candidate_shows_the_rule_witness :
  exists c, In c example_scan /\ In (ticker c) ["AAA"%string].
Proof.
  assert (H : exists c, In c example_scan).
  { vm_compute. eexists. left. reflexivity. }
  destruct H as [c Hc]. exists c. split; [exact Hc|].
  apply (@every_candidate_shows_the_rule (flat_weeks 50 5 1)
           (fun _ => Flat breakout_weeks) (fun _ => None)
           ["AAA"%string] c Hc).
Defined.

(* ===================================================================== *)
(** ** Further properties: to_weekly *)
(* ===================================================================== *)

Lemma week_end_least (d f : Z) :
  (f mod 7 = 1)%Z -> (d <= f)%Z -> (week_end d <= f)%Z.
Proof.
  intros Hf Hd. pose proof (week_end_friday d) as F.
  pose proof (week_end_bounds d).
  pose proof (Z.div_mod (week_end d) 7). pose proof (Z.div_mod f 7). lia.
Qed.

Lemma week_end_fixed (d : Z) : (d mod 7 = 1)%Z -> week_end d = d.
Proof.
  intros Hd. pose proof (@week_end_least d d Hd (Z.le_refl d)).
  pose proof (week_end_bounds d). lia.
Qed.

(** X13.  Each daily bar is counted in exactly one week: the week that
    ends on the first Friday on or after the bar's date, at most six days
    later.  It is in that week's group and in no other. *)
Theorem each_bar_in_one_week (df_daily : list Bar) (b : Bar) :
  In b df_daily ->
  let friday := week_end (date b) in
  (friday mod 7 = 1)%Z
  /\ (date b <= friday <= date b + 6)%Z
  /\ (forall f, (f mod 7 = 1)%Z -> (date b <= f)%Z -> (friday <= f)%Z)
  /\ (forall f, In b (week_group df_daily f) <-> f = friday).
Proof.
  intros Hb friday. unfold friday.
  split; [apply week_end_friday|].
  split; [pose proof (week_end_bounds (date b)); lia|].
  split; [intros f; apply (@week_end_least (date b) f)|].
  intros f. rewrite week_group_In. split.
  - intros [_ H]. now symmetry.
  - intros ->. now split.
Qed.

Lemma each_bar_in_one_week_witness :
  In (mkBar 5 (Some 11) (Some 13) (Some 10) (Some 12) (Some 200))%Q
     monday_without_open
  /\ In (mkBar 5 (Some 11) (Some 13) (Some 10) (Some 12) (Some 200))%Q
        (week_group monday_without_open 8).
Proof.
  assert (H : In (mkBar 5 (Some 11) (Some 13) (Some 10) (Some 12)
                        (Some 200))%Q monday_without_open)
    by (right; left; reflexivity).
  split; [exact H|].
  destruct (@each_bar_in_one_week monday_without_open _ H)
    as (_ & _ & _ & Hg).
  apply Hg. reflexivity.
Defined.

Lemma to_weekly_increasing (df : list Bar) :
  StronglySorted Z.lt (map date (to_weekly df)).
Proof.
  unfold to_weekly, dropna. apply StronglySorted_map_filter.
  rewrite map_map.
  replace (map (fun x => date (agg x)) (resample_W_FRI df))
    with (map fst (resample_W_FRI df))
    by (apply map_ext; reflexivity).
  apply resample_labels.
Qed.

Lemma increasing_NoDup (l : list Z) : StronglySorted Z.lt l -> NoDup l.
Proof.
  induction 1 as [|x r Hr IH Hx]; constructor; [|exact IH].
  intros Hin. rewrite Forall_forall in Hx. specialize (Hx x Hin). lia.
Qed.

(** A weekly bar comes from a daily bar of its week. *)
Lemma to_weekly_from_bar (df : list Bar) (wb : Bar) :
  In wb (to_weekly df) ->
  exists b, In b df /\ week_end (date b) = date wb.
Proof.
  intros Hin. apply to_weekly_In in Hin. destruct Hin as (Hwb & _ & Hc).
  apply complete_fields in Hc. destruct Hc as (HO & _).
  destruct (week_group df (date wb)) as [|b r] eqn:Eg.
  - exfalso. apply HO. rewrite Hwb. reflexivity.
  - exists b. apply (week_group_In df (date wb) b). rewrite Eg. now left.
Qed.

Lemma to_weekly_dates_incl (df : list Bar) :
  incl (map date (to_weekly df)) (map (fun b => week_end (date b)) df).
Proof.
  intros d Hd. apply in_map_iff in Hd. destruct Hd as (wb & <- & Hwb).
  apply to_weekly_from_bar in Hwb. destruct Hwb as (b & Hb & E).
  apply in_map_iff. now exists b.
Qed.

Lemma to_weekly_length_le (df : list Bar) :
  length (to_weekly df) <= length df.
Proof.
  pose proof (NoDup_incl_length
                (increasing_NoDup (to_weekly_increasing df))
                (@to_weekly_dates_incl df)) as H.
  now rewrite !length_map in H.
Qed.

(** X14.  [to_weekly] gives at most one bar per week and never more bars
    than it was given: the week-end dates of the result are distinct, each
    is the week of some daily bar, and the weekly frame is no longer
    than the daily one (so it is empty for an empty frame). *)
Theorem to_weekly_no_longer_than_daily (df_daily : list Bar) :
  NoDup (map date (to_weekly df_daily))
  /\ incl (map date (to_weekly df_daily))
          (map (fun b => week_end (date b)) df_daily)
  /\ length (to_weekly df_daily) <= length df_daily.
Proof.
  assert (Hnd : NoDup (map date (to_weekly df_daily)))
    by (apply increasing_NoDup, to_weekly_increasing).
  split; [exact Hnd|]. split; [apply to_weekly_dates_incl|].
  apply to_weekly_length_le.
Qed.

Section KeyedLists.

Variable A : Type.
Variable key : A -> Z.

Lemma increasing_is_sorted (l : list A) :
  StronglySorted Z.lt (map key l) ->
  StronglySorted (fun a b => (key a <= key b)%Z) l.
Proof.
  induction l as [|x r IH]; intros H; [constructor|].
  inversion H as [|? ? Hr Hx]; subst. constructor; [now apply IH|].
  rewrite Forall_forall in *. intros y Hy.
  specialize (Hx (key y) (in_map key r y Hy)). lia.
Qed.

Lemma sort_by_sorted_id (l : list A) :
  StronglySorted (fun a b => (key a <= key b)%Z) l -> sort_by key l = l.
Proof.
  induction 1 as [|x r Hr IH Hx]; [reflexivity|].
  cbn [sort_by]. rewrite IH. destruct r as [|y r']; [reflexivity|].
  cbn [insert_by]. inversion Hx as [|? ? Hy _]; subst.
  destruct (Z.leb_spec (key x) (key y)); [reflexivity | lia].
Qed.

Lemma filter_none (p : A -> bool) (l : list A) :
  (forall y, In y l -> p y = false) -> filter p l = [].
Proof.
  induction l as [|x r IH]; intros H; [reflexivity|]. simpl.
  rewrite (H x (or_introl eq_refl)). apply IH. intros y Hy. apply H.
  now right.
Qed.

Lemma filter_all (p : A -> bool) (l : list A) :
  (forall y, In y l -> p y = true) -> filter p l = l.
Proof.
  induction l as [|x r IH]; intros H; [reflexivity|]. simpl.
  rewrite (H x (or_introl eq_refl)). f_equal. apply IH. intros y Hy.
  apply H. now right.
Qed.

Lemma filter_unique_key (l : list A) (b : A) :
  StronglySorted Z.lt (map key l) -> In b l ->
  filter (fun x => (key x =? key b)%Z) l = [b].
Proof.
  induction l as [|x r IH]; intros H Hb; [contradiction|].
  inversion H as [|? ? Hr Hx]; subst. rewrite Forall_forall in Hx.
  simpl. destruct Hb as [->|Hb].
  - rewrite Z.eqb_refl. f_equal. apply filter_none. intros y Hy.
    specialize (Hx (key y) (in_map key r y Hy)).
    apply Z.eqb_neq. lia.
  - specialize (Hx (key b) (in_map key r b Hb)).
    destruct (Z.eqb_spec (key x) (key b)); [lia|]. now apply IH.
Qed.

(** Two lists in strictly increasing key order with the same elements
    are the same list. *)
Lemma increasing_ext (l1 : list A) :
  forall l2,
    StronglySorted Z.lt (map key l1) -> StronglySorted Z.lt (map key l2) ->
    (forall x, In x l1 <-> In x l2) -> l1 = l2.
Proof.
  induction l1 as [|x r1 IH]; intros [|y r2] H1 H2 Hext.
  - reflexivity.
  - exfalso. apply (proj2 (Hext y)). now left.
  - exfalso. apply (proj1 (Hext x)). now left.
  - inversion H1 as [|? ? Hr1 Hx]; inversion H2 as [|? ? Hr2 Hy]; subst.
    rewrite Forall_forall in Hx, Hy.
    assert (Exy : x = y).
    { destruct (proj1 (Hext x) (or_introl eq_refl)) as [E|Hin]; [auto|].
      destruct (proj2 (Hext y) (or_introl eq_refl)) as [E|Hin']; [auto|].
      specialize (Hx (key y) (in_map key r1 y Hin')).
      specialize (Hy (key x) (in_map key r2 x Hin)). lia. }
    subst y. f_equal. apply IH; try assumption.
    intros z. split; intros Hz.
    + destruct (proj1 (Hext z) (or_intror Hz)) as [E|Hin]; [|exact Hin].
      subst z. specialize (Hx (key x) (in_map key r1 x Hz)). lia.
    + destruct (proj2 (Hext z) (or_intror Hz)) as [E|Hin]; [|exact Hin].
      subst z. specialize (Hy (key x) (in_map key r2 x Hz)). lia.
Qed.

End KeyedLists.

Lemma Qplus_0_l_eq (v : Q) : (0 + v)%Q = v.
Proof.
  destruct v as [n d]. unfold Qplus. simpl. now rewrite Z.mul_1_r.
Qed.

(** Aggregating a week that holds one bar without missing cell gives the
    bar back, dated as the group is. *)
Lemma agg_singleton (b : Bar) :
  complete b = true -> agg (date b, [b]) = b.
Proof.
  intros Hc. apply complete_fields in Hc.
  destruct Hc as (HO & HH & HL & HC & HV).
  destruct b as [d [o|] [h|] [l|] [c|] [v|]]; simpl in *; try congruence.
  unfold agg, first_valid, max_valid, min_valid, last_valid, sum_valid, Qsum.
  simpl. now rewrite Qplus_0_l_eq.
Qed.

(** A frame that is already weekly: strictly increasing Friday dates and
    no missing cell. *)
Lemma week_group_of_weekly (w : list Bar) (b : Bar) :
  StronglySorted Z.lt (map date w) ->
  (forall x, In x w -> (date x mod 7 = 1)%Z) ->
  In b w -> week_group w (date b) = [b].
Proof.
  intros Hs Hf Hb. unfold week_group.
  rewrite sort_by_sorted_id by now apply increasing_is_sorted.
  rewrite <- (@filter_unique_key Bar date w b Hs Hb).
  apply filter_ext_in. intros x Hx. unfold in_week.
  now rewrite (@week_end_fixed (date x) (Hf x Hx)).
Qed.

Lemma to_weekly_fixed (w : list Bar) :
  StronglySorted Z.lt (map date w) ->
  (forall x, In x w -> (date x mod 7 = 1)%Z /\ complete x = true) ->
  to_weekly w = w.
Proof.
  intros Hs Hw.
  assert (Hf : forall x, In x w -> (date x mod 7 = 1)%Z)
    by (intros x Hx; now apply Hw).
  apply (@increasing_ext Bar date); [apply to_weekly_increasing | exact Hs |].
  intros x. split; intros Hx.
  - pose proof (@to_weekly_from_bar w x Hx) as (b & Hb & Eb).
    apply to_weekly_In in Hx. destruct Hx as (Ex & _ & _).
    rewrite (@week_end_fixed (date b) (Hf b Hb)) in Eb. rewrite <- Eb in Ex.
    rewrite (@week_group_of_weekly w b Hs Hf Hb) in Ex.
    rewrite agg_singleton in Ex by now apply Hw. now subst x.
  - pose proof (@resample_has_week w x Hx) as Hg.
    rewrite (@week_end_fixed (date x) (Hf x Hx)) in Hg.
    rewrite (@week_group_of_weekly w x Hs Hf Hx) in Hg.
    unfold to_weekly, dropna. apply filter_In. split; [|now apply Hw].
    apply in_map_iff. exists (date x, [x]). split; [|exact Hg].
    apply agg_singleton. now apply Hw.
Qed.

(** X15.  [to_weekly] applied to a frame that is already weekly changes
    nothing: aggregating the result of [to_weekly] again gives the same
    frame. *)
Theorem to_weekly_idempotent (df_daily : list Bar) :
  to_weekly (to_weekly df_daily) = to_weekly df_daily.
Proof.
  apply to_weekly_fixed; [apply to_weekly_increasing|].
  intros x Hx. apply to_weekly_In in Hx. tauto.
Qed.

Lemma dropna_complete (df : list Bar) (b : Bar) :
  In b (dropna df) -> complete b = true.
Proof. unfold dropna. intros H. now apply filter_In in H. Qed.

Lemma last_cons_self (A : Type) (x : A) (r : list A) :
  last (x :: r) x = last r x.
Proof. destruct r; [reflexivity|]. reflexivity. Qed.

Lemma last_valid_cons_some (q : Q) (xs : list num) :
  last_valid (Some q :: xs) <> None.
Proof.
  unfold last_valid. cbn [valid rev].
  destruct (rev (valid xs)); discriminate.
Qed.

(** A group of bars without missing cell aggregates to a bar without
    missing cell. *)
Lemma agg_complete (f : Z) (g : list Bar) :
  g <> [] -> (forall x, In x g -> complete x = true) ->
  complete (agg (f, g)) = true.
Proof.
  intros Hne Hall. destruct g as [|b0 r]; [congruence|].
  pose proof (Hall b0 (or_introl eq_refl)) as Hc.
  apply complete_fields in Hc. destruct Hc as (HO & HH & HL & HC & HV).
  destruct b0 as [d [o|] [h|] [l|] [c|] [v|]]; simpl in *; try congruence.
  unfold complete, agg. cbn [Open High Low Close Volume fst snd map].
  unfold first_valid, max_valid, min_valid, sum_valid. cbn [valid hd_error].
  pose proof (@last_valid_cons_some c (map Close r)) as Hl.
  destruct (last_valid (Some c :: map Close r)); [reflexivity | congruence].
Qed.

(** X16.  On a daily frame cleaned by [dropna], as [run_screener] does
    for the tickers of a batch download, [to_weekly] loses no week and
    reads the bars themselves: every week that holds a daily bar has its
    weekly bar, whose open is the open of the week's earliest bar and
    whose close is the close of the week's latest bar. *)
Theorem to_weekly_after_dropna (df : list Bar) :
  let df_daily := dropna df in
  open_close_of_first_and_last_bar df_daily
  /\ forall b, In b df_daily ->
       exists wb, In wb (to_weekly df_daily)
                  /\ date wb = week_end (date b).
Proof.
  cbv zeta. split.
  - intros wb Hin. pose proof (to_weekly_In _ _ Hin) as (Hwb & _ & Hc).
    assert (Hall : forall x, In x (week_group (dropna df) (date wb)) ->
                             complete x = true).
    { intros x Hx. apply week_group_In in Hx. destruct Hx as [Hx _].
      now apply dropna_complete in Hx. }
    destruct (week_group (dropna df) (date wb)) as [|b0 r] eqn:Eg.
    + apply complete_fields in Hc. destruct Hc as (HO & _).
      apply HO. rewrite Hwb. reflexivity.
    + split.
      * rewrite Hwb. cbn [agg Open snd map].
        apply first_valid_head.
        pose proof (Hall b0 (or_introl eq_refl)) as H0.
        now apply complete_fields in H0.
      * destruct (@exists_last _ (b0 :: r)) as (g' & b1 & Eg');
          [discriminate|].
        assert (Eb1 : last r b0 = b1).
        { rewrite <- last_cons_self, Eg'. apply last_last. }
        rewrite Eb1. rewrite Hwb. cbn [agg Close snd].
        rewrite Eg', map_app. cbn [map]. apply last_valid_last.
        assert (H1 : In b1 (b0 :: r))
          by (rewrite Eg'; apply in_or_app; right; now left).
        apply Hall in H1. now apply complete_fields in H1.
  - intros b Hb.
    exists (agg (week_end (date b),
                 week_group (dropna df) (week_end (date b)))).
    split; [|reflexivity].
    unfold to_weekly. apply filter_In. split.
    + apply in_map. now apply resample_has_week.
    + apply agg_complete.
      * intros E.
        assert (Hin : In b (week_group (dropna df) (week_end (date b))))
          by now apply week_group_In.
        rewrite E in Hin. contradiction.
      * intros x Hx. apply week_group_In in Hx. destruct Hx as [Hx _].
        now apply dropna_complete in Hx.
Qed.

(* ===================================================================== *)
(** ** Further properties: the table of run_screener *)
(* ===================================================================== *)

(** X17.  When no capitalization could be fetched, the saved table keeps
    the candidates in the order of the scan; a table is written iff there
    is at least one candidate, and it has one row per candidate. *)
Theorem table_without_capitalizations (caps : string -> option Z)
  (candidates : list Candidate) :
  (rank_candidates caps candidates = None <-> candidates = [])
  /\ (forall table, rank_candidates caps candidates = Some table ->
      length table = length candidates)
  /\ (candidates <> [] ->
      (forall c, In c candidates -> caps (ticker c) = None) ->
      rank_candidates caps candidates
      = Some (map (fun c => (c, None)) candidates)).
Proof.
  split; [|split].
  - unfold rank_candidates. destruct candidates; split;
      try discriminate; reflexivity.
  - intros table H.
    assert (E : table = sort_values_market_cap_desc
                          (map (fun c => (c, caps (ticker c))) candidates))
      by (unfold rank_candidates in H; destruct candidates;
          [discriminate | now inversion H]).
    destruct (sort_values_market_cap_desc_spec
                (map (fun c => (c, caps (ticker c))) candidates)) as [Hp _].
    rewrite <- E in Hp. apply Permutation_length in Hp.
    now rewrite length_map in Hp.
  - intros Hne Hnone.
    assert (Erows : map (fun c => (c, caps (ticker c))) candidates
                    = map (fun c => (c, @None Z)) candidates).
    { apply map_ext_in. intros c Hc. now rewrite Hnone. }
    unfold rank_candidates. destruct candidates as [|c0 r]; [congruence|].
    rewrite Erows. f_equal. unfold sort_values_market_cap_desc.
    rewrite filter_none, filter_all; [reflexivity | |];
      intros y Hy; apply in_map_iff in Hy; destruct Hy as (c & <- & _);
      reflexivity.
Qed.

Lemma table_without_capitalizations_witness :
  rank_candidates (fun _ => None) example_candidates
  = Some (map (fun c => (c, None)) example_candidates).
Proof.
  apply (table_without_capitalizations (fun _ => None) example_candidates).
  - discriminate.
  - reflexivity.
Defined.

(* ===================================================================== *)
(** ** Further properties: how the steps compose *)
(* ===================================================================== *)

(** X18.  A ticker whose daily frame has fewer than
    [SMA_WEEKS + BASE_LOOKBACK_WEEKS] (50) bars is never a candidate:
    its weekly frame cannot have more rows than it has daily bars, and
    the length test of [is_weinstein_buy] turns it down. *)
Theorem short_daily_history_is_never_a_candidate (spy_weekly : list Bar)
  (t : string) (df_daily : list Bar) :
  length df_daily < SMA_WEEKS + BASE_LOOKBACK_WEEKS ->
  screen_ticker spy_weekly t df_daily = None.
Proof.
  intros Hs. destruct (screen_ticker spy_weekly t df_daily) as [c|] eqn:E;
    [|reflexivity].
  apply screen_ticker_Some in E. destruct E as [_ E].
  apply passing_rule in E. destruct E as (Hn & _).
  pose proof (to_weekly_length_le df_daily). lia.
Qed.

Lemma short_daily_history_is_never_a_candidate_witness :
  length (flat_weeks 49 10 100) < SMA_WEEKS + BASE_LOOKBACK_WEEKS
  /\ screen_ticker (flat_weeks 50 5 1) "AAA" (flat_weeks 49 10 100) = None.
Proof.
  assert (H : length (flat_weeks 49 10 100)
              < SMA_WEEKS + BASE_LOOKBACK_WEEKS) by (vm_compute; lia).
  split; [exact H|].
  apply (@short_daily_history_is_never_a_candidate (flat_weeks 50 5 1)
           "AAA"%string (flat_weeks 49 10 100) H).
Defined.

Lemma fgt_sub_zero (x y : float) :
  Float.gt (Float.sub x y) (Fin 0) = Float.gt x y.
Proof.
  destruct x as [| |a|], y as [| |b|]; try reflexivity.
  simpl. unfold Qltb. f_equal.
  destruct (Qle_bool (a + - b) 0) eqn:E1, (Qle_bool a b) eqn:E2;
    try reflexivity.
  - apply Qle_bool_iff in E1.
    assert (H : (a <= b)%Q) by lra.
    apply Qle_bool_iff in H. congruence.
  - apply Qle_bool_iff in E2.
    assert (H : (a + - b <= 0)%Q) by lra.
    apply Qle_bool_iff in H. congruence.
Qed.

(** X19.  With a benchmark, from row [RS_LOOKBACK] (8) on, the
    relative-strength slope of a row is strictly positive iff the row's
    ratio is strictly above the ratio of [RS_LOOKBACK] rows before; on
    the rows before that it is never positive. *)
Theorem rs_rising_compares_two_ratios (weekly bw : list Bar) (t : nat) :
  t < length weekly ->
  let f := compute_indicators weekly (Some bw) in
  (RS_LOOKBACK <= t ->
   (rs_rising_at f t <->
    Float.gt (rs_at f t) (rs_at f (t - RS_LOOKBACK)) = true))
  /\ (t < RS_LOOKBACK -> ~ rs_rising_at f t).
Proof.
  intros Ht. cbv zeta. unfold rs_rising_at, rs_slope_at, rs_at.
  rewrite ci_rs. cbn [RS RS_slope].
  rewrite fdiff_nth by (rewrite ci_RS_length; exact Ht).
  split; intros Hk.
  - destruct (Nat.ltb_spec t RS_LOOKBACK); [lia|].
    now rewrite fgt_sub_zero.
  - destruct (Nat.ltb_spec t RS_LOOKBACK); [|lia]. discriminate.
Qed.

Lemma rs_rising_compares_two_ratios_witness :
  49 < length breakout_weeks
  /\ (rs_rising_at
        (compute_indicators breakout_weeks (Some (flat_weeks 50 5 1))) 49
      <-> Float.gt
            (rs_at (compute_indicators breakout_weeks
                      (Some (flat_weeks 50 5 1))) 49)
            (rs_at (compute_indicators breakout_weeks
                      (Some (flat_weeks 50 5 1))) (49 - RS_LOOKBACK))
          = true).
Proof.
  assert (H : 49 < length breakout_weeks) by (vm_compute; lia).
  split; [exact H|].
  apply (@rs_rising_compares_two_ratios breakout_weeks (flat_weeks 50 5 1)
           49 H).
  vm_compute. lia.
Defined.

(** Witnesses of the properties above at concrete frames. *)
Lemma compute_indicators_shape_witness :
  has_RS_slope (compute_indicators (flat_weeks 3 10 100)
                  (Some gap_benchmark)) = true.
Proof.
  destruct (compute_indicators_shape (flat_weeks 3 10 100)
              (Some gap_benchmark)) as (_ & _ & _ & _ & _ & H & _).
  apply H. discriminate.
Defined.

Lemma candidates_follow_the_tickers_witness :
  NoDup ["AAA"%string] /\ NoDup (map ticker example_scan).
Proof.
  assert (H : NoDup ["AAA"%string]) by (repeat constructor; intros []).
  split; [exact H|].
  destruct (candidates_follow_the_tickers (flat_weeks 50 5 1)
              (fun _ => Flat breakout_weeks) (fun _ => None)
              ["AAA"%string]) as (_ & _ & Hn).
  exact (Hn H).
Defined.

Lemma to_weekly_after_dropna_witness :
  In (mkBar 5 (Some 11) (Some 13) (Some 10) (Some 12) (Some 200))%Q
     (dropna monday_without_open)
  /\ exists wb, In wb (to_weekly (dropna monday_without_open))
                /\ date wb = week_end 5.
Proof.
  assert (H : In (mkBar 5 (Some 11) (Some 13) (Some 10) (Some 12)
                        (Some 200))%Q (dropna monday_without_open))
    by (vm_compute; left; reflexivity).
  split; [exact H|].
  destruct (to_weekly_after_dropna monday_without_open) as [_ Hw].
  exact (Hw _ H).
Defined.
